(** * PromiseConcurrentExecutor: a bounded-concurrency runner for promises

    A shallow embedding of [src/promise-concurrent-executor.ts].

    The class keeps five fields and exposes synchronous methods ([add],
    [addAll], [getConcurrency], [setConcurrency], [size]) and asynchronous
    ones ([executeAll], [executeAllSettled], [addWithAutoExecute]).  The
    synchronous part is embedded as pure functions on a record.  The
    asynchronous part is embedded as an event loop: a [World] holds the
    executor object together with the closures that the JavaScript runtime
    keeps alive (armed [setInterval] timers, pending task promises, the
    [Promise.all] / [Promise.allSettled] combinators and the suspended
    [await]), and [step] runs one job of the loop to completion.  Which job
    runs next is chosen by the environment, so a trace of events is one
    real-time interleaving.

    The traces are more liberal than the runtime in two respects: the timers
    of a run may fire in any order, and the continuation of a run may be
    delayed past later callbacks, whereas the runtime runs it in the
    microtasks that follow the deciding settlement.  What is proved for all
    traces therefore holds for the real ones; the concrete traces below keep
    to the runtime's order.

    Numbers are mathematical integers: [NaN], infinities and fractions are
    outside the model. *)

From Stdlib Require Import ZArith Lia.
From stdpp Require Import base list strings.

Local Open Scope Z_scope.

(** ** Values, tasks and options *)

(** The values that flow through the executor untouched ([any]). *)
Inductive any : Type :=
| Undefined
| Num (n : Z)
| Str (s : string)
| JsError (message : string).

(** [PromiseSettledResult<T>]: [{status: 'fulfilled', value}] or
    [{status: 'rejected', reason}]. *)
Inductive PromiseSettledResult : Type :=
| fulfilled (value : any)
| rejected (reason : any).

(** A queued function [() => Promise<any>].  The executor never looks inside
    it; all it observes is how the promise returned by the call settles.
    When it settles is decided by the environment. *)
Record Task : Type := { settles : PromiseSettledResult }.

Inductive ExecuteType : Type := All | AllSettled.

Record AutoExecute : Type := {
  type : ExecuteType;
  triggerThreshold : Z }.

Record PromiseConcurrentExecutorOption : Type := {
  interval : option Z;
  autoExecute : option AutoExecute }.

(** [{}] *)
Definition no_options : PromiseConcurrentExecutorOption :=
  {| interval := None; autoExecute := None |}.

(** [a || b] on an optional number: [undefined] and [0] are falsy. *)
Definition or_number (a b : option Z) : option Z :=
  match a with
  | None | Some 0 => b
  | Some _ => a
  end.

(** [a || d] where [d] is a number literal. *)
Definition or_default (a : option Z) (d : Z) : Z :=
  match a with
  | None | Some 0 => d
  | Some n => n
  end.

(** ** The executor object *)

Record PromiseConcurrentExecutor : Type := {
  concurrency : Z;
  options : PromiseConcurrentExecutorOption;
  queue : list Task;
  runningCount : Z;
  isRunning : bool }.

(** What a call does besides changing the object: it returns, or it throws.
    For an [async] method, [Throw] stands for the rejected promise that the
    throw turns into. *)
Inductive Completion (A : Type) : Type :=
| Normal (a : A)
| Throw (e : any).
Arguments Normal {A} a.
Arguments Throw {A} e.

Definition init (this : PromiseConcurrentExecutor) : PromiseConcurrentExecutor :=
  {| concurrency := concurrency this;
     options := options this;
     queue := [];
     runningCount := 0;
     isRunning := false |}.

Definition constructor (concurrency : option Z)
    (options : option PromiseConcurrentExecutorOption) : PromiseConcurrentExecutor :=
  init {| concurrency := or_default concurrency 1;
          options := default no_options options;
          queue := [];
          runningCount := 0;
          isRunning := false |}.

Definition getConcurrency (this : PromiseConcurrentExecutor) : Z :=
  concurrency this.

Definition setConcurrency (n : Z) (this : PromiseConcurrentExecutor)
    : PromiseConcurrentExecutor :=
  {| concurrency := n;
     options := options this;
     queue := queue this;
     runningCount := runningCount this;
     isRunning := isRunning this |}.

Definition size (this : PromiseConcurrentExecutor) : Z :=
  Z.of_nat (length (queue this)).

(** [this.queue.push(asyncFunction)] *)
Definition push (asyncFunction : Task) (this : PromiseConcurrentExecutor)
    : PromiseConcurrentExecutor :=
  {| concurrency := concurrency this;
     options := options this;
     queue := queue this ++ [asyncFunction];
     runningCount := runningCount this;
     isRunning := isRunning this |}.

Definition cannot_add : any :=
  JsError "Cannot add any processes while execution is in progress.".

Definition already_in_progress : any :=
  JsError "Execution is already in progress.".

Definition add (asyncFunction : Task) (this : PromiseConcurrentExecutor)
    : Completion PromiseConcurrentExecutor :=
  if isRunning this then Throw cannot_add
  else Normal (push asyncFunction this).

(** The [for] loop of [addAll]: one [add] per element, left to right; a throw
    leaves the loop. *)
Fixpoint addAll (asyncFunctions : list Task) (this : PromiseConcurrentExecutor)
    : Completion PromiseConcurrentExecutor :=
  match asyncFunctions with
  | [] => Normal this
  | f :: rest =>
      match add f this with
      | Normal this' => addAll rest this'
      | Throw e => Throw e
      end
  end.

(** The body of the [setInterval] callback in [wait]:
    [this.runningCount < this.concurrency && this.runningCount++ != null].
    The increment yields a number, which is never [null], so the second
    conjunct only performs the increment.  [None] when the check fails. *)
Definition wait_poll (this : PromiseConcurrentExecutor) : option PromiseConcurrentExecutor :=
  if runningCount this <? concurrency this
  then Some {| concurrency := concurrency this;
               options := options this;
               queue := queue this;
               runningCount := runningCount this + 1;
               isRunning := isRunning this |}
  else None.

(** [this.runningCount--] in the [finally] of [execute]. *)
Definition release (this : PromiseConcurrentExecutor) : PromiseConcurrentExecutor :=
  {| concurrency := concurrency this;
     options := options this;
     queue := queue this;
     runningCount := runningCount this - 1;
     isRunning := isRunning this |}.

(** [this.isRunning = true] *)
Definition mark_running (this : PromiseConcurrentExecutor) : PromiseConcurrentExecutor :=
  {| concurrency := concurrency this;
     options := options this;
     queue := queue this;
     runningCount := runningCount this;
     isRunning := true |}.

(** [options?.interval || this.options.interval || 100] *)
Definition wait_interval (opts : option PromiseConcurrentExecutorOption)
    (this : PromiseConcurrentExecutor) : Z :=
  or_default (or_number (opts ≫= interval) (interval (options this))) 100.

(** [options?.autoExecute || this.options.autoExecute] *)
Definition auto_execute (opts : option PromiseConcurrentExecutorOption)
    (this : PromiseConcurrentExecutor) : option AutoExecute :=
  match opts ≫= autoExecute with
  | Some a => Some a
  | None => autoExecute (options this)
  end.

(** ** The event loop *)

(** Where one queued function is on its way through [execute]. *)
Inductive Phase : Type :=
| Polling                            (* in [wait]: its interval timer is armed *)
| Executing                          (* past the gate: [promise()] was called, its promise is pending *)
| Settled (r : PromiseSettledResult). (* the promise settled, the [finally] ran *)

(** State of the combinator awaited by a run: [Promise.all] or
    [Promise.allSettled] over the mapped queue. *)
Inductive Aggregate : Type :=
| Pending
| ResolvedAll (values : list any)
| ResolvedAllSettled (results : list PromiseSettledResult)
| Rejected (reason : any).

(** One call of [executeAll] / [executeAllSettled] that got past its guard:
    the array produced by [this.queue.map], position by position.
    [run_interval] is the period with which the timers of the run were
    armed; when they fire is left to the environment. *)
Record Run : Type := {
  run_type : ExecuteType;
  run_tasks : list Task;
  run_interval : Z;
  run_phase : list Phase;
  run_promise : Aggregate;
  run_returned : bool }.

Record World : Type := {
  executor : PromiseConcurrentExecutor;
  runs : list Run }.

(** Jobs of the loop: calls made by the user of the object, and callbacks of
    the runtime. *)
Inductive Event : Type :=
| call_add (asyncFunction : Task)
| call_addAll (asyncFunctions : list Task)
| call_addWithAutoExecute (asyncFunction : Task)
    (opts : option PromiseConcurrentExecutorOption)
| call_setConcurrency (n : Z)
| call_executeAll (opts : option PromiseConcurrentExecutorOption)
| call_executeAllSettled (opts : option PromiseConcurrentExecutorOption)
| timer (r i : nat)      (* the interval callback of position [i] of run [r] fires *)
| settle (r i : nat)     (* the promise of position [i] of run [r] settles *)
| resume (r : nat).      (* run [r] continues after its [await] *)

(** What the job hands back. *)
Inductive Reply : Type :=
| returns                      (* returned; for an async method, resolved with [undefined] *)
| throws (e : any)             (* threw; for an async method, rejected with [e] *)
| awaits (r : nat)             (* a promise that follows run [r] *)
| delivers (a : Aggregate)     (* the promise of the run settles with [a] *)
| quiet.

(** [Promise.all]: the values by position once every position is fulfilled. *)
Definition fulfilled_value (p : Phase) : option any :=
  match p with
  | Settled (fulfilled v) => Some v
  | _ => None
  end.

(** [Promise.allSettled]: the results by position once every position settled. *)
Definition settled_result (p : Phase) : option PromiseSettledResult :=
  match p with
  | Settled r => Some r
  | _ => None
  end.

(** The combinator when nothing has rejected so far. *)
Definition combine (ty : ExecuteType) (ps : list Phase) : Aggregate :=
  match ty with
  | All =>
      match mapM fulfilled_value ps with
      | Some vs => ResolvedAll vs
      | None => Pending
      end
  | AllSettled =>
      match mapM settled_result ps with
      | Some rs => ResolvedAllSettled rs
      | None => Pending
      end
  end.

(** The combinator hears that one of its promises settled with [r]; [ps] are
    the phases after that.  A settled combinator ignores everything. *)
Definition notify (ty : ExecuteType) (ps : list Phase) (r : PromiseSettledResult)
    (a : Aggregate) : Aggregate :=
  match a with
  | Pending =>
      match ty, r with
      | All, rejected reason => Rejected reason
      | _, _ => combine ty ps
      end
  | _ => a
  end.

(** The part of [executeAll] / [executeAllSettled] that runs inside the call:
    the guard, [this.isRunning = true], and [this.queue.map], in which every
    element enters [execute] and [wait] and arms its timer. *)
Definition start (ty : ExecuteType) (opts : option PromiseConcurrentExecutorOption)
    (w : World) : World * Reply :=
  let this := executor w in
  if isRunning this then (w, throws already_in_progress)
  else
    let ps := (λ _, Polling) <$> queue this in
    ({| executor := mark_running this;
        runs := runs w ++ [ {| run_type := ty;
                               run_tasks := queue this;
                               run_interval := wait_interval opts this;
                               run_phase := ps;
                               run_promise := combine ty ps;
                               run_returned := false |} ] |},
     awaits (length (runs w))).

(** The two methods have the same body up to the combinator they await. *)
Definition executeAll := start All.
Definition executeAllSettled := start AllSettled.

(** [addWithAutoExecute] up to its [await]: the push, the threshold test and
    the call of the configured method.  After a reply [awaits r] its promise
    settles when run [r] resumes: resolved with [undefined], or rejected with
    the reason of the run. *)
Definition addWithAutoExecute (asyncFunction : Task)
    (opts : option PromiseConcurrentExecutorOption) (w : World) : World * Reply :=
  let this := push asyncFunction (executor w) in
  let w' := {| executor := this; runs := runs w |} in
  match auto_execute opts this with
  | Some a =>
      if triggerThreshold a <=? size this
      then match type a with
           | All => executeAll opts w'
           | AllSettled => executeAllSettled opts w'
           end
      else (w', returns)
  | None => (w', returns)
  end.

Definition with_executor (this : PromiseConcurrentExecutor) (w : World) : World :=
  {| executor := this; runs := runs w |}.

Definition with_phase (i : nat) (p : Phase) (R : Run) : Run :=
  {| run_type := run_type R;
     run_tasks := run_tasks R;
     run_interval := run_interval R;
     run_phase := <[i := p]> (run_phase R);
     run_promise := run_promise R;
     run_returned := run_returned R |}.

Definition with_promise (a : Aggregate) (R : Run) : Run :=
  {| run_type := run_type R;
     run_tasks := run_tasks R;
     run_interval := run_interval R;
     run_phase := run_phase R;
     run_promise := a;
     run_returned := run_returned R |}.

Definition mark_returned (R : Run) : Run :=
  {| run_type := run_type R;
     run_tasks := run_tasks R;
     run_interval := run_interval R;
     run_phase := run_phase R;
     run_promise := run_promise R;
     run_returned := true |}.

(** The interval callback of [wait].  When the check passes, the count is
    incremented in the same expression, the timer is cleared, and [execute]
    goes on to call the queued function. *)
Definition on_timer (r i : nat) (w : World) : option (World * Reply) :=
  R ← runs w !! r;
  p ← run_phase R !! i;
  match p with
  | Polling =>
      match wait_poll (executor w) with
      | Some this =>
          Some ({| executor := this;
                   runs := <[r := with_phase i Executing R]> (runs w) |}, quiet)
      | None => Some (w, quiet)
      end
  | _ => None
  end.

(** The promise of a running function settles: [resolve] or [reject], then
    [this.runningCount--]; the combinator of the run is notified. *)
Definition on_settle (r i : nat) (w : World) : option (World * Reply) :=
  R ← runs w !! r;
  p ← run_phase R !! i;
  t ← run_tasks R !! i;
  match p with
  | Executing =>
      let R1 := with_phase i (Settled (settles t)) R in
      let R2 := with_promise
                  (notify (run_type R) (run_phase R1) (settles t) (run_promise R)) R1 in
      Some ({| executor := release (executor w);
               runs := <[r := R2]> (runs w) |}, quiet)
  | _ => None
  end.

(** The [await] of a run is over: the [finally] block calls [init], and the
    promise of the run settles like the combinator did. *)
Definition on_resume (r : nat) (w : World) : option (World * Reply) :=
  R ← runs w !! r;
  match run_promise R, run_returned R with
  | Pending, _ => None
  | _, true => None
  | a, false =>
      Some ({| executor := init (executor w);
               runs := <[r := mark_returned R]> (runs w) |}, delivers a)
  end.

Definition step (w : World) (ev : Event) : option (World * Reply) :=
  match ev with
  | call_add f =>
      match add f (executor w) with
      | Normal this => Some (with_executor this w, returns)
      | Throw e => Some (w, throws e)
      end
  | call_addAll fs =>
      match addAll fs (executor w) with
      | Normal this => Some (with_executor this w, returns)
      | Throw e => Some (w, throws e)
      end
  | call_addWithAutoExecute f opts => Some (addWithAutoExecute f opts w)
  | call_setConcurrency n => Some (with_executor (setConcurrency n (executor w)) w, returns)
  | call_executeAll opts => Some (executeAll opts w)
  | call_executeAllSettled opts => Some (executeAllSettled opts w)
  | timer r i => on_timer r i w
  | settle r i => on_settle r i w
  | resume r => on_resume r w
  end.

(** A trace: the jobs in the order in which they ran.  [None] when some job
    of the trace could not run where the trace puts it. *)
Fixpoint run_events (w : World) (evs : list Event) : option World :=
  match evs with
  | [] => Some w
  | ev :: evs' =>
      match step w ev with
      | Some (w', _) => run_events w' evs'
      | None => None
      end
  end.

(** A fresh object, with nothing on the loop yet. *)
Definition new (concurrency : option Z)
    (options : option PromiseConcurrentExecutorOption) : World :=
  {| executor := constructor concurrency options; runs := [] |}.

(** How many queued functions are executing right now. *)
Definition slot (p : Phase) : nat :=
  match p with
  | Executing => 1
  | _ => 0
  end.

Definition executing_in (R : Run) : nat :=
  sum_list_with slot (run_phase R).

Definition executing (w : World) : nat :=
  sum_list_with executing_in (runs w).

(** The replies of a trace, job by job. *)
Fixpoint replies (w : World) (evs : list Event) : option (list Reply) :=
  match evs with
  | [] => Some []
  | ev :: evs' =>
      match step w ev with
      | Some (w', rep) => (rep ::.) <$> replies w' evs'
      | None => None
      end
  end.

(** Calls that the guards turn down while a run is in progress. *)
Definition guarded (ev : Event) : Prop :=
  match ev with
  | call_add _ | call_addAll (_ :: _) | call_executeAll _ | call_executeAllSettled _ => True
  | _ => False
  end.

(** Jobs of the runtime and limit changes: nothing is queued, no run starts
    or ends. *)
Definition background (ev : Event) : Prop :=
  match ev with
  | timer _ _ | settle _ _ | call_setConcurrency _ => True
  | _ => False
  end.

(** Sample tasks, as in the test suite: settle with a number. *)
Definition resolve (n : Z) : Task := {| settles := fulfilled (Num n) |}.
Definition reject (n : Z) : Task := {| settles := rejected (Num n) |}.

(** ** Notions used in the statements *)

(** Seen from run [r], a job does one of four things. *)
Inductive run_step (r : nat) : Event → Run → Run → Prop :=
| run_idle ev R :
    (∀ i, ev ≠ settle r i) →
    run_step r ev R R
| run_pass i R :
    run_phase R !! i = Some Polling →
    run_step r (timer r i) R (with_phase i Executing R)
| run_settle i t R :
    run_phase R !! i = Some Executing →
    run_tasks R !! i = Some t →
    run_step r (settle r i) R
      (with_promise
         (notify (run_type R) (<[i := Settled (settles t)]> (run_phase R))
                 (settles t) (run_promise R))
         (with_phase i (Settled (settles t)) R))
| run_resume R :
    run_promise R ≠ Pending →
    run_returned R = false →
    run_step r (resume r) R (mark_returned R).

(** Every settled position holds the result of the function queued at that
    position. *)
Definition link (p : Phase) (t : Task) : Prop :=
  ∀ o, p = Settled o → o = settles t.

Definition linked (R : Run) : Prop :=
  Forall2 link (run_phase R) (run_tasks R).

Inductive run_steps (r : nat) : list Event → Run → Run → Prop :=
| run_steps_nil R : run_steps r [] R R
| run_steps_cons ev evs R R' R'' :
    run_step r ev R R' → run_steps r evs R' R'' → run_steps r (ev :: evs) R R''.

(** The reason with which position [i] rejects, if it does. *)
Definition rejection (ts : list Task) (i : nat) : option any :=
  match settles <$> ts !! i with
  | Some (rejected x) => Some x
  | _ => None
  end.

(** The reason of the earliest job of the trace in which a function of run
    [r] rejects. *)
Fixpoint first_rejection (r : nat) (ts : list Task) (evs : list Event) : option any :=
  match evs with
  | [] => None
  | settle r' i :: evs' =>
      if decide (r' = r)
      then match rejection ts i with
           | Some x => Some x
           | None => first_rejection r ts evs'
           end
      else first_rejection r ts evs'
  | _ :: evs' => first_rejection r ts evs'
  end.

Definition unrejected (p : Phase) : Prop := ∀ x, p ≠ Settled (rejected x).

(** Nothing has made the combinator reject so far. *)
Definition clean (R : Run) : Prop :=
  run_promise R = combine (run_type R) (run_phase R) ∧
  (run_type R = All → Forall unrejected (run_phase R)).

(** The schedule that serves positions [from], [from + 1], ... one after the
    other. *)
Definition sequential (r from n : nat) : list Event :=
  flat_map (λ i, [timer r i; settle r i]) (seq from n).

(** The world after a trace that can run. *)
Definition after (w : World) (evs : list Event) : World :=
  default w (run_events w evs).

(** A fresh object with [ts] queued through [addAll]. *)
Definition loaded (concurrency : option Z) (ts : list Task) : World :=
  after (new concurrency None) [call_addAll ts].

(** A job is calm when it neither lowers the limit below the running count
    nor ends a run while some function is still executing. *)
Definition calm_at (w : World) (ev : Event) : Prop :=
  match ev with
  | resume _ => executing w = 0%nat
  | call_setConcurrency n => runningCount (executor w) ≤ n
  | _ => True
  end.

Fixpoint calm (w : World) (evs : list Event) : Prop :=
  match evs with
  | [] => True
  | ev :: evs' =>
      calm_at w ev ∧
      match step w ev with
      | Some (w', _) => calm w' evs'
      | None => True
      end
  end.

(** The count is the number of executing functions and within the limit. *)
Definition counted (w : World) : Prop :=
  runningCount (executor w) = Z.of_nat (executing w) ∧
  runningCount (executor w) ≤ concurrency (executor w).

(** The worlds that a program can be in: those that some trace reaches from
    a fresh object. *)
Definition reachable (w : World) : Prop :=
  ∃ c opts evs, run_events (new c opts) evs = Some w.

(** What holds in every reachable world: settled positions hold the result
    of their function, and the count never exceeds the number of executing
    functions. *)
Definition sound (w : World) : Prop :=
  Forall linked (runs w) ∧
  runningCount (executor w) ≤ Z.of_nat (executing w).

(** A combinator that settled without rejecting. *)
Definition resolved (a : Aggregate) : Prop :=
  match a with
  | ResolvedAll _ | ResolvedAllSettled _ => True
  | _ => False
  end.

(** A job is orderly when it neither lowers the limit below the running
    count nor ends a run in a rejection. *)
Definition orderly_at (w : World) (ev : Event) : Prop :=
  match ev with
  | resume r => ∀ R, runs w !! r = Some R → resolved (run_promise R)
  | call_setConcurrency n => runningCount (executor w) ≤ n
  | _ => True
  end.

Fixpoint orderly (w : World) (evs : list Event) : Prop :=
  match evs with
  | [] => True
  | ev :: evs' =>
      orderly_at w ev ∧
      match step w ev with
      | Some (w', _) => orderly w' evs'
      | None => True
      end
  end.

(** Every position of the run has settled. *)
Definition drained (R : Run) : Prop :=
  Forall (λ p, is_Some (settled_result p)) (run_phase R).

(** A run whose combinator resolved is drained, and a run that returned had
    its combinator resolved. *)
Definition tidy_run (R : Run) : Prop :=
  (resolved (run_promise R) → drained R) ∧
  (run_returned R = true → resolved (run_promise R)).

Definition flags (w : World) : list bool := run_returned <$> runs w.

(** What orderly jobs keep: every run is tidy, no run is pending while the
    flag is down, and at most one run is pending. *)
Definition tidy (w : World) : Prop :=
  Forall tidy_run (runs w) ∧
  (isRunning (executor w) = false → Forall (λ b, b = true) (flags w)) ∧
  (∀ r1 r2, flags w !! r1 = Some false → flags w !! r2 = Some false → r1 = r2).

(** ** The loop of [addAllWithAutoExecute] *)

(** Where the loop [for (...) { await this.addWithAutoExecute(f, options) }]
    stands: it ran to its end, it left with an error, or it is suspended on
    the run that one of its calls started, with the functions still to add. *)
Inductive LoopState : Type :=
| loop_done
| loop_failed (e : any)
| loop_awaits (r : nat) (rest : list Task).

(** The loop up to its first suspension on a run.  A call that returns at
    once lets the loop go on within the same job; a call that throws ends
    the loop with that error; a call that started a run suspends it. *)
Fixpoint addAllWithAutoExecute (asyncFunctions : list Task)
    (opts : option PromiseConcurrentExecutorOption) (w : World) : World * LoopState :=
  match asyncFunctions with
  | [] => (w, loop_done)
  | f :: rest =>
      match addWithAutoExecute f opts w with
      | (w', throws e) => (w', loop_failed e)
      | (w', awaits r) => (w', loop_awaits r rest)
      | (w', _) => addAllWithAutoExecute rest opts w'
      end
  end.

(** The run that the loop awaits has resumed with [a]: a rejection leaves
    the loop, anything else lets it go on with the next function. *)
Definition loop_continue (a : Aggregate) (rest : list Task)
    (opts : option PromiseConcurrentExecutorOption) (w : World) : World * LoopState :=
  match a with
  | Rejected x => (w, loop_failed x)
  | _ => addAllWithAutoExecute rest opts w
  end.

(** A trace of jobs with a loop in flight: when the awaited run resumes, the
    loop goes on in the microtasks of that job. *)
Fixpoint run_loop (opts : option PromiseConcurrentExecutorOption) (w : World)
    (st : LoopState) (evs : list Event) : option (World * LoopState) :=
  match evs with
  | [] => Some (w, st)
  | ev :: evs' =>
      match step w ev with
      | None => None
      | Some (w', rep) =>
          match ev, st, rep with
          | resume r, loop_awaits r' rest, delivers a =>
              if decide (r = r')
              then let '(w'', st') := loop_continue a rest opts w' in
                   run_loop opts w'' st' evs'
              else run_loop opts w' st evs'
          | _, _, _ => run_loop opts w' st evs'
          end
      end
  end.

(** Jobs of the runtime alone: what can run while the caller awaits. *)
Definition runtime (ev : Event) : Prop :=
  match ev with
  | timer _ _ | settle _ _ | resume _ => True
  | _ => False
  end.

(** The length of the queue after [fs] went through the loop, starting with
    [len] queued functions, when every run that the threshold [k] triggers
    takes the whole queue with it. *)
Fixpoint leftover (k : Z) (len : nat) (fs : list Task) : nat :=
  match fs with
  | [] => len
  | _ :: rest =>
      if k <=? Z.of_nat (S len) then leftover k 0 rest else leftover k (S len) rest
  end.

(** The functions of the runs from position [n] on, run after run. *)
Definition submitted (n : nat) (w : World) : list Task :=
  concat (run_tasks <$> drop n (runs w)).

(** What holds of a loop in flight that was called in an idle world with
    [n0] earlier runs: [all] are the functions queued at the call followed by
    those of the loop, and [target] is the queue length that the loop ends
    with if no run fails. *)
Definition loop_inv (k : Z) (all : list Task) (n0 target : nat) (w : World)
    (st : LoopState) : Prop :=
  (n0 ≤ length (runs w))%nat ∧
  match st with
  | loop_done =>
      isRunning (executor w) = false ∧ Forall (λ b, b = true) (flags w) ∧
      submitted n0 w ++ queue (executor w) = all ∧
      length (queue (executor w)) = target
  | loop_awaits r rest =>
      flags w !! r = Some false ∧
      (∀ r', flags w !! r' = Some false → r' = r) ∧
      submitted n0 w ++ rest = all ∧
      leftover k 0 rest = target
  | loop_failed e =>
      isRunning (executor w) = false ∧ Forall (λ b, b = true) (flags w) ∧
      queue (executor w) = [] ∧
      (∃ rest, submitted n0 w ++ rest = all) ∧
      ∃ r R, runs w !! r = Some R ∧ run_promise R = Rejected e
  end.

(** ** More notions used in the statements *)

(** [undefined] and [0]: what [||] skips. *)
Definition falsy (a : option Z) : Prop := a = None ∨ a = Some 0.

(** A position never moves backwards, and a result never changes. *)
Definition phase_le (p q : Phase) : Prop :=
  match p, q with
  | Polling, _ => True
  | Executing, (Executing | Settled _) => True
  | Settled r, Settled r' => r = r'
  | _, _ => False
  end.

(** Jobs that leave the limit at zero or below. *)
Definition keeps_limit_low (ev : Event) : Prop :=
  match ev with
  | call_setConcurrency n => n ≤ 0
  | _ => True
  end.

(** At most one run is pending, and one is pending exactly while the flag
    is up. *)
Definition one_pending (w : World) : Prop :=
  (isRunning (executor w) = false → Forall (λ b, b = true) (flags w)) ∧
  (isRunning (executor w) = true → ∃ r, flags w !! r = Some false) ∧
  (∀ r1 r2, flags w !! r1 = Some false → flags w !! r2 = Some false → r1 = r2).

(** A loop whose strategy is [executeAllSettled] has not failed, and the run
    it awaits is such a run, whose combinator has not rejected. *)
Definition allSettled_loop (w : World) (st : LoopState) : Prop :=
  match st with
  | loop_done => True
  | loop_failed _ => False
  | loop_awaits r _ =>
      ∃ R, runs w !! r = Some R ∧ run_type R = AllSettled ∧
           ∀ x, run_promise R ≠ Rejected x
  end.


(** The predicates on jobs and traces can be decided by evaluation. *)
#[global] Instance guarded_dec ev : Decision (guarded ev).
Proof. destruct ev as [| [|] | | | | | | |]; simpl; apply _. Defined.

#[global] Instance background_dec ev : Decision (background ev).
Proof. destruct ev; simpl; apply _. Defined.

#[global] Instance calm_at_dec w ev : Decision (calm_at w ev).
Proof. destruct ev; simpl; apply _. Defined.

#[global] Instance calm_dec w evs : Decision (calm w evs).
Proof.
  revert w. induction evs as [| ev evs IH]; intros w; simpl; [apply _ |].
  destruct (step w ev) as [[w' rep] |]; apply _.
Defined.

#[global] Instance resolved_dec a : Decision (resolved a).
Proof. destruct a; simpl; apply _. Defined.

Local Ltac still :=
  simpl in *; simplify_eq; simpl in *;
  (split; [repeat split; assumption | intros r R HR; exists R; done]).

Local Ltac unchanged := simpl in *; simplify_eq; simpl in *; (split; assumption).

(** * Configuration *)

(** C9: a concurrency argument of 0, or none at all, gives a limit of 1. *)
Theorem constructor_falsy_concurrency (opts : option PromiseConcurrentExecutorOption) :
  getConcurrency (constructor None opts) = 1 ∧
  getConcurrency (constructor (Some 0) opts) = 1 ∧
  getConcurrency (executor (new None opts)) = 1 ∧
  getConcurrency (executor (new (Some 0) opts)) = 1.
Proof. repeat split. Qed.

Lemma constructor_truthy_concurrency n opts :
  n ≠ 0 → getConcurrency (constructor (Some n) opts) = n.
Proof. intros Hn. destruct n; [done | reflexivity | reflexivity]. Qed.

Lemma wait_poll_Some this this' :
  wait_poll this = Some this' ↔
  runningCount this < concurrency this ∧
  this' = {| concurrency := concurrency this; options := options this;
             queue := queue this; runningCount := runningCount this + 1;
             isRunning := isRunning this |}.
Proof.
  unfold wait_poll. destruct (Z.ltb_spec (runningCount this) (concurrency this)).
  - split; [intros [= <-]; done | intros [_ ->]; done].
  - split; [done | intros [? _]; lia].
Qed.

Lemma wait_poll_None this :
  wait_poll this = None ↔ concurrency this ≤ runningCount this.
Proof.
  unfold wait_poll. destruct (Z.ltb_spec (runningCount this) (concurrency this)).
  - split; [done | lia].
  - split; [lia | done].
Qed.

(** [setConcurrency] accepts every number, and [getConcurrency] then returns
    that number; a limit of zero or less keeps the gate shut for an object
    whose running count is not negative. *)
Theorem getConcurrency_setConcurrency (n : Z) (w : World) :
  getConcurrency (setConcurrency n (executor w)) = n ∧
  (∃ w', step w (call_setConcurrency n) = Some (w', returns) ∧
         getConcurrency (executor w') = n) ∧
  (n ≤ 0 → 0 ≤ runningCount (executor w) →
   wait_poll (setConcurrency n (executor w)) = None).
Proof.
  split; [reflexivity |]. split.
  - eexists. split; reflexivity.
  - intros Hn Hc. apply wait_poll_None. simpl. lia.
Qed.

Lemma getConcurrency_setConcurrency_witness :
  getConcurrency (setConcurrency (-3) (executor (new (Some 4) None))) = -3 ∧
  wait_poll (setConcurrency (-3) (executor (new (Some 4) None))) = None.
Proof.
  destruct (getConcurrency_setConcurrency (-3) (new (Some 4) None)) as (H1 & _ & H3).
  split; [exact H1 | apply H3; simpl; lia].
Defined.

(** C10: [setConcurrency(0)] is accepted and [getConcurrency] returns 0, but
    that limit does not keep functions out once the running count is
    negative.  Limit 2; an [executeAll] fails while a second function is
    still executing, the failure resets the count, and the settlement of
    that function takes it to -1.  After [setConcurrency(0)], one function is
    added and run: its timer finds -1 < 0 and the function is executing
    under a limit of 0; it settles, and the run returns its result. *)
Theorem nonpositive_limit_admits_after_failed_executeAll :
  (λ w, (getConcurrency (executor w), runningCount (executor w)))
    <$> run_events (loaded (Some 2) [reject 1; resolve 2])
          [call_executeAll None; timer 0 0; timer 0 1;
           settle 0 0; resume 0; settle 0 1;
           call_setConcurrency 0]%nat
  = Some (0, -1) ∧
  (λ w, (getConcurrency (executor w), isRunning (executor w), executing w,
         run_phase <$> runs w !! 1%nat))
    <$> run_events (loaded (Some 2) [reject 1; resolve 2])
          [call_executeAll None; timer 0 0; timer 0 1;
           settle 0 0; resume 0; settle 0 1;
           call_setConcurrency 0; call_addAll [resolve 3];
           call_executeAllSettled None; timer 1 0]%nat
  = Some (0, true, 1%nat, Some [Executing]) ∧
  replies (loaded (Some 2) [reject 1; resolve 2])
    [call_executeAll None; timer 0 0; timer 0 1;
     settle 0 0; resume 0; settle 0 1;
     call_setConcurrency 0; call_addAll [resolve 3];
     call_executeAllSettled None; timer 1 0; settle 1 0; resume 1]%nat
  = Some [awaits 0%nat; quiet; quiet; quiet; delivers (Rejected (Num 1)); quiet;
          returns; returns; awaits 1%nat; quiet; quiet;
          delivers (ResolvedAllSettled [fulfilled (Num 3)])].
Proof. repeat split. Qed.

(** * Guards *)

Lemma addAll_running fs this :
  isRunning this = true → fs ≠ [] → addAll fs this = Throw cannot_add.
Proof.
  intros Hrun Hfs. destruct fs as [| f fs]; [done |].
  simpl. unfold add. by rewrite Hrun.
Qed.

Lemma addAll_idle fs this :
  isRunning this = false →
  addAll fs this = Normal {| concurrency := concurrency this; options := options this;
                             queue := queue this ++ fs;
                             runningCount := runningCount this;
                             isRunning := false |}.
Proof.
  revert this. induction fs as [| f fs IH]; intros this Hidle; simpl.
  - rewrite app_nil_r. destruct this; simpl in *; by subst.
  - unfold add. rewrite Hidle. rewrite IH by done. simpl.
    rewrite <- app_assoc. reflexivity.
Qed.

Lemma guarded_step w ev :
  isRunning (executor w) = true → guarded ev →
  ∃ e, step w ev = Some (w, throws e).
Proof.
  intros Hrun Hg. destruct ev as [f | [| f fs] | | | opts | opts | | |]; try done; simpl.
  - unfold add. rewrite Hrun. eauto.
  - unfold add. rewrite Hrun. eauto.
  - unfold executeAll, start. rewrite Hrun. eauto.
  - unfold executeAllSettled, start. rewrite Hrun. eauto.
Qed.

(** C5, amended: while a run is in progress, [add], and [addAll] with at
    least one function, throw the cannot-add error, and [executeAll] and
    [executeAllSettled] fail with the already-in-progress error; the object
    is left as it was, so the same happens at every further such call. *)
Theorem guards_while_running (w : World) :
  isRunning (executor w) = true →
  (∀ f, add f (executor w) = Throw cannot_add) ∧
  (∀ f fs, addAll (f :: fs) (executor w) = Throw cannot_add) ∧
  (∀ f, step w (call_add f) = Some (w, throws cannot_add)) ∧
  (∀ f fs, step w (call_addAll (f :: fs)) = Some (w, throws cannot_add)) ∧
  (∀ opts, step w (call_executeAll opts) = Some (w, throws already_in_progress)) ∧
  (∀ opts, step w (call_executeAllSettled opts) = Some (w, throws already_in_progress)) ∧
  (∀ evs, Forall guarded evs → run_events w evs = Some w).
Proof.
  intros Hrun.
  assert (Hadd : ∀ f, add f (executor w) = Throw cannot_add).
  { intros f. unfold add. by rewrite Hrun. }
  assert (HaddAll : ∀ f fs, addAll (f :: fs) (executor w) = Throw cannot_add).
  { intros f fs. by apply addAll_running. }
  repeat split.
  - exact Hadd.
  - exact HaddAll.
  - intros f. simpl. by rewrite Hadd.
  - intros f fs. unfold step. by rewrite HaddAll.
  - intros opts. simpl. unfold executeAll, start. by rewrite Hrun.
  - intros opts. simpl. unfold executeAllSettled, start. by rewrite Hrun.
  - intros evs Hevs. induction Hevs as [| ev evs Hg _ IH]; [done |].
    simpl. destruct (guarded_step w ev Hrun Hg) as [e ->]. exact IH.
Qed.

Lemma guards_while_running_witness :
  step (after (loaded (Some 3) [resolve 1]) [call_executeAll None])
       (call_addAll [resolve 2; resolve 3])
  = Some (after (loaded (Some 3) [resolve 1]) [call_executeAll None], throws cannot_add).
Proof.
  apply (guards_while_running (after (loaded (Some 3) [resolve 1]) [call_executeAll None])).
  reflexivity.
Defined.

(** C5 as stated fails for [addAll] with an empty array: its loop body never
    runs, so nothing is thrown although a run is in progress. *)
Lemma addAll_empty_while_running :
  replies (new None None)
          [call_add (resolve 1); call_executeAll None; call_addAll []]
  = Some [returns; awaits 0%nat; returns].
Proof. reflexivity. Qed.

(** * The combinators *)

Lemma fulfilled_value_settled p v :
  fulfilled_value p = Some v ↔ p = Settled (fulfilled v).
Proof.
  destruct p as [| | [v' | x]]; simpl; split; try done.
  - by intros [= ->].
  - by intros [= ->].
Qed.

Lemma settled_result_settled p r : settled_result p = Some r ↔ p = Settled r.
Proof. destruct p; simpl; split; try done; by intros [= ->]. Qed.

(** As long as some position has not settled, neither combinator resolves. *)
Lemma combine_unsettled ty ps p :
  p ∈ ps → settled_result p = None → combine ty ps = Pending.
Proof.
  intros Hin Hp. unfold combine. destruct ty.
  - assert (mapM fulfilled_value ps = None) as ->; [| done].
    apply mapM_None, Exists_exists. exists p. split; [done |].
    by destruct p as [| | []].
  - assert (mapM settled_result ps = None) as ->; [| done].
    apply mapM_None, Exists_exists. eauto.
Qed.

Lemma combine_nil ty :
  combine ty [] = match ty with All => ResolvedAll [] | AllSettled => ResolvedAllSettled [] end.
Proof. by destruct ty. Qed.

(** Once every position has settled, [Promise.allSettled] resolves with the
    results by position, and so does [Promise.all] if all are fulfilled. *)
Lemma combine_allSettled_done (ts : list Task) :
  combine AllSettled ((Settled ∘ settles) <$> ts) = ResolvedAllSettled (settles <$> ts).
Proof.
  unfold combine. rewrite list_fmap_compose.
  by rewrite (mapM_fmap_Some settled_result Settled).
Qed.

Lemma combine_all_done (ts : list Task) (vs : list any) :
  settles <$> ts = fulfilled <$> vs →
  combine All ((Settled ∘ settles) <$> ts) = ResolvedAll vs.
Proof.
  intros Hvs. unfold combine. rewrite list_fmap_compose, Hvs, <- list_fmap_compose.
  by rewrite (mapM_fmap_Some fulfilled_value (Settled ∘ fulfilled)).
Qed.

(** * Adding with automatic execution *)

Lemma start_idle ty opts w :
  isRunning (executor w) = false →
  start ty opts w =
    ({| executor := mark_running (executor w);
        runs := runs w ++ [ {| run_type := ty;
                               run_tasks := queue (executor w);
                               run_interval := wait_interval opts (executor w);
                               run_phase := (λ _, Polling) <$> queue (executor w);
                               run_promise := combine ty ((λ _, Polling) <$> queue (executor w));
                               run_returned := false |} ] |},
     awaits (length (runs w))).
Proof. intros Hidle. unfold start. by rewrite Hidle. Qed.

Lemma start_running ty opts w :
  isRunning (executor w) = true → start ty opts w = (w, throws already_in_progress).
Proof. intros Hrun. unfold start. by rewrite Hrun. Qed.

Lemma addWithAutoExecute_queue f opts w :
  queue (executor (addWithAutoExecute f opts w).1) = queue (executor w) ++ [f].
Proof.
  unfold addWithAutoExecute.
  destruct (auto_execute opts (push f (executor w))) as [a |]; [| done].
  destruct (triggerThreshold a <=? size (push f (executor w))); [| done].
  unfold executeAll, executeAllSettled, start. simpl.
  destruct (type a), (isRunning (executor w)); done.
Qed.

(** C6, amended: [addWithAutoExecute] appends the function whether or not a
    run is in progress and never throws the cannot-add error.  Without an
    auto-execute setting, or with a queue still shorter than the threshold,
    that is all it does.  Otherwise it calls the configured strategy: during
    a run this fails with the already-in-progress error (the function stays
    queued); outside a run it starts a run over the whole queue, new
    function included, and its promise follows that run. *)
Theorem addWithAutoExecute_appends_then_triggers (f : Task)
    (opts : option PromiseConcurrentExecutorOption) (w : World) :
  let this := push f (executor w) in
  let w' := with_executor this w in
  queue (executor (addWithAutoExecute f opts w).1) = queue (executor w) ++ [f] ∧
  (addWithAutoExecute f opts w).2 ≠ throws cannot_add ∧
  ((∀ a, auto_execute opts this = Some a → size this < triggerThreshold a) →
   addWithAutoExecute f opts w = (w', returns)) ∧
  (∀ a, auto_execute opts this = Some a → triggerThreshold a ≤ size this →
   if isRunning (executor w)
   then addWithAutoExecute f opts w = (w', throws already_in_progress)
   else ∃ R, addWithAutoExecute f opts w =
               ({| executor := mark_running this; runs := runs w ++ [R] |},
                awaits (length (runs w))) ∧
             run_type R = type a ∧
             run_tasks R = queue (executor w) ++ [f] ∧
             run_promise R = Pending ∧
             run_returned R = false).
Proof.
  intros this w'. split; [apply addWithAutoExecute_queue |].
  assert (Hcases :
    ((∀ a, auto_execute opts this = Some a → size this < triggerThreshold a) →
     addWithAutoExecute f opts w = (w', returns)) ∧
    (∀ a, auto_execute opts this = Some a → triggerThreshold a ≤ size this →
     addWithAutoExecute f opts w = start (type a) opts w')).
  { unfold addWithAutoExecute. fold this. fold w'. unfold with_executor in w'.
    destruct (auto_execute opts this) as [a |].
    - destruct (Z.leb_spec (triggerThreshold a) (size this)) as [Hle | Hlt].
      + split.
        * intros H. specialize (H a eq_refl). lia.
        * intros a' [= <-] _. by destruct (type a).
      + split; [done |]. intros a' [= <-] ?. lia.
    - split; [done |]. intros a' [=]. }
  destruct Hcases as [Hbelow Htrigger].
  split; [| split; [exact Hbelow |]].
  - unfold addWithAutoExecute. fold this.
    destruct (auto_execute opts this) as [a |]; [| done].
    destruct (triggerThreshold a <=? size this); [| done].
    unfold executeAll, executeAllSettled, start. simpl.
    destruct (type a), (isRunning (executor w)); done.
  - intros a Ha Hle. rewrite (Htrigger a Ha Hle).
    destruct (isRunning (executor w)) eqn:Hrun.
    + by apply start_running.
    + rewrite start_idle by done. eexists. split; [reflexivity |].
      simpl. repeat split.
      apply (combine_unsettled _ _ Polling); [| done].
      apply list_elem_of_fmap. exists f. split; [done |].
      apply elem_of_app. right. by apply list_elem_of_singleton.
Qed.

Lemma addWithAutoExecute_appends_then_triggers_witness :
  ∃ R, addWithAutoExecute (resolve 2)
         (Some {| interval := Some 10;
                  autoExecute := Some {| type := All; triggerThreshold := 2 |} |})
         (loaded (Some 5) [resolve 1])
       = ({| executor := mark_running (push (resolve 2) (executor (loaded (Some 5) [resolve 1])));
             runs := [R] |},
          awaits 0%nat) ∧
       run_type R = All ∧
       run_tasks R = [resolve 1; resolve 2] ∧
       run_promise R = Pending ∧
       run_returned R = false.
Proof.
  destruct (addWithAutoExecute_appends_then_triggers (resolve 2)
    (Some {| interval := Some 10;
             autoExecute := Some {| type := All; triggerThreshold := 2 |} |})
    (loaded (Some 5) [resolve 1]))
    as (_ & _ & _ & H).
  assert (Hle : 2 ≤ size (push (resolve 2) (executor (loaded (Some 5) [resolve 1]))))
    by (vm_compute; discriminate).
  exact (H {| type := All; triggerThreshold := 2 |} eq_refl Hle).
Defined.

(** C6 as stated fails: during a run, [add] throws, whereas
    [addWithAutoExecute] appends and returns; and when the threshold is met
    it fails with the error of [executeAll], not with that of [add], after
    having appended. *)
Lemma addWithAutoExecute_while_running :
  replies (new (Some 1) None)
    [call_add (resolve 1); call_executeAll None;
     call_add (resolve 2);
     call_addWithAutoExecute (resolve 2) None;
     call_addWithAutoExecute (resolve 3)
       (Some {| interval := None;
                autoExecute := Some {| type := All; triggerThreshold := 3 |} |})]
  = Some [returns; awaits 0%nat; throws cannot_add; returns; throws already_in_progress] ∧
  (size ∘ executor) <$>
    run_events (new (Some 1) None)
      [call_add (resolve 1); call_executeAll None;
       call_add (resolve 2);
       call_addWithAutoExecute (resolve 2) None;
       call_addWithAutoExecute (resolve 3)
         (Some {| interval := None;
                  autoExecute := Some {| type := All; triggerThreshold := 3 |} |})]
  = Some 3.
Proof. split; reflexivity. Qed.

(** * How one job changes one run *)

Lemma start_run_step ty opts w w' rep r R :
  start ty opts w = (w', rep) → runs w !! r = Some R → runs w' !! r = Some R.
Proof.
  unfold start. destruct (isRunning (executor w)); intros [= <- <-] HR; [done |].
  simpl. by apply lookup_app_l_Some.
Qed.

Lemma step_run_step w ev w' rep r R :
  step w ev = Some (w', rep) →
  runs w !! r = Some R →
  ∃ R', runs w' !! r = Some R' ∧ run_step r ev R R'.
Proof.
  intros Hstep HR.
  destruct ev as [f | fs | f opts | n | opts | opts | r0 i | r0 i | r0]; simpl in Hstep.
  - exists R. split; [| by constructor].
    destruct (add f (executor w)); simplify_eq; done.
  - exists R. split; [| by constructor].
    destruct (addAll fs (executor w)); simplify_eq; done.
  - exists R. split; [| by constructor].
    injection Hstep as Hstep. unfold addWithAutoExecute in Hstep.
    destruct (auto_execute _ _) as [a |]; [| by simplify_eq].
    destruct (_ <=? _); [| by simplify_eq].
    destruct (type a); by eapply start_run_step.
  - exists R. split; [| by constructor]. by simplify_eq.
  - exists R. split; [| by constructor].
    injection Hstep as Hstep. by eapply start_run_step.
  - exists R. split; [| by constructor].
    injection Hstep as Hstep. by eapply start_run_step.
  - unfold on_timer in Hstep.
    destruct (runs w !! r0) as [R0 |] eqn:HR0; [| done]. simpl in Hstep.
    destruct (run_phase R0 !! i) as [p |] eqn:Hp; [| done]. simpl in Hstep.
    destruct p; try done.
    destruct (wait_poll (executor w)) as [this |].
    + injection Hstep as <- <-. simpl.
      destruct (decide (r0 = r)) as [-> | Hne].
      * rewrite HR in HR0. injection HR0 as <-.
        exists (with_phase i Executing R). split; [| by constructor].
        apply list_lookup_insert_eq. by eapply lookup_lt_Some.
      * exists R. split; [| by constructor].
        by rewrite list_lookup_insert_ne.
    + injection Hstep as <- <-. exists R. split; [done | by constructor].
  - unfold on_settle in Hstep.
    destruct (runs w !! r0) as [R0 |] eqn:HR0; [| done]. simpl in Hstep.
    destruct (run_phase R0 !! i) as [p |] eqn:Hp; [| done]. simpl in Hstep.
    destruct (run_tasks R0 !! i) as [t |] eqn:Ht; [| done]. simpl in Hstep.
    destruct p; try done.
    injection Hstep as <- <-. simpl.
    destruct (decide (r0 = r)) as [-> | Hne].
    + rewrite HR in HR0. injection HR0 as <-.
      eexists. split; [apply list_lookup_insert_eq; by eapply lookup_lt_Some |].
      by constructor.
    + exists R. split; [by rewrite list_lookup_insert_ne |].
      constructor. intros j [= -> _]. done.
  - unfold on_resume in Hstep.
    destruct (runs w !! r0) as [R0 |] eqn:HR0; [| done]. simpl in Hstep.
    destruct (decide (r0 = r)) as [-> | Hne].
    + rewrite HR in HR0. injection HR0 as <-.
      exists (mark_returned R).
      destruct (run_promise R) eqn:Hpr, (run_returned R) eqn:Hret; try done;
        injection Hstep as <- <-; simpl;
        (split; [apply list_lookup_insert_eq; by eapply lookup_lt_Some |]);
        constructor; congruence.
    + exists R.
      destruct (run_promise R0), (run_returned R0); try done;
        injection Hstep as <- <-; simpl;
        (split; [by rewrite list_lookup_insert_ne | by constructor]).
Qed.

(** What a run keeps for good. *)
Lemma run_step_fixed r ev R R' :
  run_step r ev R R' →
  run_type R' = run_type R ∧ run_tasks R' = run_tasks R ∧
  run_interval R' = run_interval R.
Proof. by destruct 1. Qed.

(** A settled combinator stays as it is: what settles later is dropped. *)
Lemma run_step_settled_promise r ev R R' :
  run_step r ev R R' → run_promise R ≠ Pending → run_promise R' = run_promise R.
Proof. destruct 1; try done. simpl. by destruct (run_promise R). Qed.

Lemma linked_insert i p t R :
  linked R → run_tasks R !! i = Some t → (∀ o, p = Settled o → o = settles t) →
  linked (with_phase i p R).
Proof.
  unfold linked. simpl. intros HL Ht Hp.
  rewrite <- (list_insert_id (run_tasks R) i t) by done.
  by apply Forall2_insert.
Qed.

Lemma run_step_linked r ev R R' : run_step r ev R R' → linked R → linked R'.
Proof.
  destruct 1 as [| i R Hp | i t R Hp Ht |]; try done; intros HL.
  - destruct (Forall2_lookup_l _ _ _ _ _ HL Hp) as (t & Ht & _).
    by eapply linked_insert.
  - assert (linked (with_phase i (Settled (settles t)) R)) as HL'; [| exact HL'].
    eapply linked_insert; [done | done |]. by intros o [= <-].
Qed.

(** ** Along a trace *)

Lemma run_events_cons w ev evs w'' :
  run_events w (ev :: evs) = Some w'' ↔
  ∃ w' rep, step w ev = Some (w', rep) ∧ run_events w' evs = Some w''.
Proof.
  simpl. destruct (step w ev) as [[w' rep] |].
  - split; [eauto | by intros (? & ? & [= <- <-] & ?)].
  - split; [done | by intros (? & ? & ? & ?)].
Qed.

Lemma run_events_app w evs1 evs2 w'' :
  run_events w (evs1 ++ evs2) = Some w'' ↔
  ∃ w', run_events w evs1 = Some w' ∧ run_events w' evs2 = Some w''.
Proof.
  revert w. induction evs1 as [| ev evs1 IH]; intros w; simpl.
  - split; [eauto | by intros (? & [= <-] & ?)].
  - destruct (step w ev) as [[w1 rep] |]; [apply IH |].
    split; [done | by intros (? & ? & ?)].
Qed.

Lemma run_events_run_steps r evs w w' R :
  run_events w evs = Some w' →
  runs w !! r = Some R →
  ∃ R', runs w' !! r = Some R' ∧ run_steps r evs R R'.
Proof.
  revert w R. induction evs as [| ev evs IH]; intros w R Hrun HR.
  - injection Hrun as <-. exists R. split; [done | constructor].
  - apply run_events_cons in Hrun as (w1 & rep & Hstep & Hrun).
    destruct (step_run_step _ _ _ _ _ _ Hstep HR) as (R1 & HR1 & Hs).
    destruct (IH _ _ Hrun HR1) as (R' & HR' & Hss).
    exists R'. split; [done |]. by econstructor.
Qed.

Lemma run_steps_fixed r evs R R' :
  run_steps r evs R R' →
  run_type R' = run_type R ∧ run_tasks R' = run_tasks R ∧
  run_interval R' = run_interval R.
Proof.
  induction 1 as [| ev evs R R1 R2 Hs _ IH]; [done |].
  destruct (run_step_fixed _ _ _ _ Hs) as (H1 & H2 & H3).
  rewrite <- H1, <- H2, <- H3. exact IH.
Qed.

Lemma run_steps_linked r evs R R' : run_steps r evs R R' → linked R → linked R'.
Proof. induction 1; eauto using run_step_linked. Qed.

Lemma run_steps_settled_promise r evs R R' :
  run_steps r evs R R' → run_promise R ≠ Pending → run_promise R' = run_promise R.
Proof.
  induction 1 as [| ev evs R R1 R2 Hs _ IH]; [done |]. intros Hne.
  rewrite <- (run_step_settled_promise _ _ _ _ Hs Hne). apply IH.
  by rewrite (run_step_settled_promise _ _ _ _ Hs Hne).
Qed.

(** ** The first rejection of a trace *)

Lemma combine_insert_unsettled ty (ps : list Phase) (i : nat) p :
  (i < length ps)%nat → settled_result p = None → combine ty (<[i := p]> ps) = Pending.
Proof.
  intros Hi Hp. apply (combine_unsettled _ _ p); [| done].
  apply list_elem_of_lookup. exists i. by apply list_lookup_insert_eq.
Qed.

Lemma combine_lookup_unsettled ty ps i p :
  ps !! i = Some p → settled_result p = None → combine ty ps = Pending.
Proof.
  intros Hi Hp. apply (combine_unsettled _ _ p); [| done].
  apply list_elem_of_lookup. eauto.
Qed.

Lemma run_step_clean r ev R R' :
  run_step r ev R R' → clean R →
  run_type R = AllSettled ∨ first_rejection r (run_tasks R) [ev] = None →
  clean R'.
Proof.
  destruct 1 as [| i R Hp | i t R Hp Ht |]; try done; intros [Hpr Hrej] Hno.
  - split; simpl.
    + rewrite Hpr, (combine_lookup_unsettled _ _ _ _ Hp) by done.
      symmetry. apply combine_insert_unsettled; [by eapply lookup_lt_Some | done].
    + intros Hty. apply Forall_insert; [by apply Hrej | done].
  - assert (run_promise R = Pending) as HP.
    { rewrite Hpr. by eapply combine_lookup_unsettled. }
    split; simpl.
    + rewrite HP. simpl. destruct (run_type R) eqn:Hty; [| done].
      destruct Hno as [| Hno]; [done |]. simpl in Hno.
      rewrite decide_True in Hno by done. unfold rejection in Hno.
      rewrite Ht in Hno. simpl in Hno.
      by destruct (settles t).
    + intros Hty. apply Forall_insert; [by apply Hrej |].
      destruct Hno as [Hno | Hno]; [congruence |]. simpl in Hno.
      rewrite decide_True in Hno by done. unfold rejection in Hno.
      rewrite Ht in Hno. simpl in Hno.
      destruct (settles t); [| done]. by intros x.
Qed.

Lemma run_step_first_rejection r ev R R' x :
  run_step r ev R R' → clean R → run_type R = All →
  first_rejection r (run_tasks R) [ev] = Some x →
  run_promise R' = Rejected x.
Proof.
  destruct 1 as [ev R Hev | i R Hp | i t R Hp Ht |]; try done; intros [Hpr Hrej] Hty Hx.
  - simpl in Hx. destruct ev as [| | | | | | | r0 i |]; try done.
    destruct (decide (r0 = r)) as [-> | Hne]; [| done]. by destruct (Hev i).
  - simpl in Hx. rewrite decide_True in Hx by done. unfold rejection in Hx.
    rewrite Ht in Hx. simpl in Hx.
    assert (run_promise R = Pending) as HP.
    { rewrite Hpr. by eapply combine_lookup_unsettled. }
    simpl. rewrite HP, Hty. destruct (settles t); [done |]. by injection Hx as ->.
Qed.

Lemma first_rejection_cons r ts ev evs :
  first_rejection r ts (ev :: evs) =
  match first_rejection r ts [ev] with
  | Some x => Some x
  | None => first_rejection r ts evs
  end.
Proof.
  destruct ev as [| | | | | | | r0 i |]; try done. simpl.
  destruct (decide (r0 = r)); [| done]. by destruct (rejection ts i).
Qed.

(** The combinator of an [executeAll] run after a trace: rejected with the
    first rejection of the trace if there is one, and otherwise as
    [combine] says.  The combinator of an [executeAllSettled] run is always
    as [combine] says. *)
Lemma run_steps_promise r evs R R' :
  run_steps r evs R R' → clean R →
  match run_type R, first_rejection r (run_tasks R) evs with
  | All, Some x => run_promise R' = Rejected x
  | _, _ => clean R'
  end.
Proof.
  induction 1 as [R | ev evs R R1 R2 Hs Hss IH]; intros Hclean.
  - simpl. by destruct (run_type R).
  - destruct (run_step_fixed _ _ _ _ Hs) as (Hty & Hts & _).
    rewrite Hty, Hts in IH. rewrite first_rejection_cons.
    destruct (run_type R) eqn:HtyR.
    + destruct (first_rejection r (run_tasks R) [ev]) as [x |] eqn:Hev.
      * pose proof (run_step_first_rejection _ _ _ _ _ Hs Hclean HtyR Hev) as Hx.
        rewrite <- Hx. apply (run_steps_settled_promise _ _ _ _ Hss). by rewrite Hx.
      * apply IH. eapply run_step_clean; eauto.
    + assert (clean R1) as H1 by (eapply run_step_clean; eauto).
      exact (IH H1).
Qed.

(** ** Jobs that can run *)

Lemma release_wait_poll this this' : wait_poll this = Some this' → release this' = this.
Proof.
  intros [_ ->]%wait_poll_Some. destruct this as [c o q n b]. unfold release. simpl.
  f_equal. lia.
Qed.

Lemma timer_passes w r i R :
  runs w !! r = Some R → run_phase R !! i = Some Polling →
  runningCount (executor w) < concurrency (executor w) →
  ∃ this, wait_poll (executor w) = Some this ∧
    step w (timer r i) =
      Some ({| executor := this; runs := <[r := with_phase i Executing R]> (runs w) |}, quiet).
Proof.
  intros HR Hp Hgate. simpl. unfold on_timer. rewrite HR. simpl. rewrite Hp. simpl.
  destruct (wait_poll (executor w)) as [this |] eqn:Ha; [eauto |].
  apply wait_poll_None in Ha. lia.
Qed.

Lemma settle_runs w r i R t :
  runs w !! r = Some R → run_phase R !! i = Some Executing → run_tasks R !! i = Some t →
  step w (settle r i) =
    Some ({| executor := release (executor w);
             runs := <[r := with_promise
                              (notify (run_type R) (<[i := Settled (settles t)]> (run_phase R))
                                      (settles t) (run_promise R))
                              (with_phase i (Settled (settles t)) R)]> (runs w) |}, quiet).
Proof.
  intros HR Hp Ht. simpl. unfold on_settle. rewrite HR. simpl. rewrite Hp. simpl.
  rewrite Ht. reflexivity.
Qed.

Lemma resume_runs w r R :
  runs w !! r = Some R → run_promise R ≠ Pending → run_returned R = false →
  step w (resume r) =
    Some ({| executor := init (executor w);
             runs := <[r := mark_returned R]> (runs w) |}, delivers (run_promise R)).
Proof.
  intros HR Hp Hret. simpl. unfold on_resume. rewrite HR. simpl. rewrite Hret.
  by destruct (run_promise R).
Qed.

Lemma resume_inv w r w' rep :
  step w (resume r) = Some (w', rep) →
  ∃ R, runs w !! r = Some R ∧ run_promise R ≠ Pending ∧ run_returned R = false ∧
       rep = delivers (run_promise R) ∧
       w' = {| executor := init (executor w);
               runs := <[r := mark_returned R]> (runs w) |}.
Proof.
  simpl. unfold on_resume. destruct (runs w !! r) as [R |]; [| done]. simpl.
  intros H. exists R.
  destruct (run_promise R), (run_returned R); try done;
    injection H as <- <-; done.
Qed.

(** Position [i] passes the gate, runs and settles, with no other job in
    between. *)
Lemma serve w r i R t :
  runs w !! r = Some R → run_phase R !! i = Some Polling → run_tasks R !! i = Some t →
  runningCount (executor w) < concurrency (executor w) →
  run_events w [timer r i; settle r i] =
    Some {| executor := executor w;
            runs := <[r := with_promise
                             (notify (run_type R) (<[i := Settled (settles t)]> (run_phase R))
                                     (settles t) (run_promise R))
                             (with_phase i (Settled (settles t)) R)]> (runs w) |}.
Proof.
  intros HR Hp Ht Hgate.
  destruct (timer_passes _ _ _ _ HR Hp Hgate) as (this & Ha & Htimer).
  apply run_events_cons. do 2 eexists. split; [exact Htimer |].
  apply run_events_cons. do 2 eexists. split.
  - apply (settle_runs _ r i (with_phase i Executing R) t); simpl.
    + apply list_lookup_insert_eq. by eapply lookup_lt_Some.
    + apply list_lookup_insert_eq. by eapply lookup_lt_Some.
    + done.
  - simpl. rewrite (release_wait_poll _ _ Ha), list_insert_insert_eq.
    unfold with_phase. simpl. by rewrite list_insert_insert_eq.
Qed.


(** * Counting the executing functions *)

Lemma sum_list_with_insert {A} (f : A → nat) (l : list A) (i : nat) (x y : A) :
  l !! i = Some x →
  (sum_list_with f (<[i := y]> l) + f x = sum_list_with f l + f y)%nat.
Proof.
  revert i. induction l as [| a l IH]; intros [| i] Hi; try done; simpl in *.
  - injection Hi as ->. lia.
  - specialize (IH _ Hi). lia.
Qed.

Lemma executing_in_insert i p p0 R :
  run_phase R !! i = Some p0 →
  (executing_in (with_phase i p R) + slot p0 = executing_in R + slot p)%nat.
Proof. intros Hp. unfold executing_in. simpl. by apply sum_list_with_insert. Qed.

Lemma executing_insert (rs : list Run) r R R' :
  rs !! r = Some R →
  (sum_list_with executing_in (<[r := R']> rs) + executing_in R
   = sum_list_with executing_in rs + executing_in R')%nat.
Proof. apply sum_list_with_insert. Qed.

Lemma executing_in_polling ty (ts : list Task) n a b :
  executing_in {| run_type := ty; run_tasks := ts; run_interval := n;
                  run_phase := (λ _, Polling) <$> ts;
                  run_promise := a; run_returned := b |} = 0%nat.
Proof. unfold executing_in. simpl. induction ts as [| t ts IH]; [done | exact IH]. Qed.

Lemma start_counts ty opts w w' rep :
  start ty opts w = (w', rep) →
  executing w' = executing w ∧
  runningCount (executor w') = runningCount (executor w) ∧
  concurrency (executor w') = concurrency (executor w).
Proof.
  unfold start. destruct (isRunning (executor w)); intros [= <- <-]; [done |].
  split; [| done]. unfold executing. simpl.
  rewrite sum_list_with_app. simpl. rewrite executing_in_polling. lia.
Qed.

Lemma fresh_linked ty (ts : list Task) n a b :
  linked {| run_type := ty; run_tasks := ts; run_interval := n;
            run_phase := (λ _, Polling) <$> ts;
            run_promise := a; run_returned := b |}.
Proof.
  unfold linked. simpl. apply Forall2_fmap_l, Forall_Forall2_diag, Forall_true.
  by intros t o.
Qed.

Lemma start_sound ty opts w w' rep :
  start ty opts w = (w', rep) → sound w → sound w'.
Proof.
  intros Hstart [Hlinked Hle].
  destruct (start_counts _ _ _ _ _ Hstart) as (He & Hn & _).
  split; [| by rewrite He, Hn].
  unfold start in Hstart. destruct (isRunning (executor w)); injection Hstart as <- <-;
    [done |].
  simpl. apply Forall_app. split; [done |]. apply Forall_singleton, fresh_linked.
Qed.

Lemma sound_step w ev w' rep :
  sound w → step w ev = Some (w', rep) → sound w'.
Proof.
  intros Hsound Hstep. pose proof Hsound as [Hlinked Hle]. unfold sound, executing in *.
  destruct ev as [f | fs | f opts | n | opts | opts | r i | r i | r]; simpl in Hstep.
  - unfold add in Hstep. destruct (isRunning (executor w)); unchanged.
  - destruct (isRunning (executor w)) eqn:Hrun.
    + destruct fs as [| f fs]; [unchanged |].
      rewrite addAll_running in Hstep by done. unchanged.
    + rewrite addAll_idle in Hstep by done. unchanged.
  - injection Hstep as Hstep. unfold addWithAutoExecute in Hstep.
    destruct (auto_execute _ _) as [a |]; [| unchanged].
    destruct (_ <=? _); [| unchanged].
    destruct (type a); by apply start_sound in Hstep.
  - unchanged.
  - injection Hstep as Hstep. by apply start_sound in Hstep.
  - injection Hstep as Hstep. by apply start_sound in Hstep.
  - unfold on_timer in Hstep.
    destruct (runs w !! r) as [R |] eqn:HR; [| done]. simpl in Hstep.
    destruct (run_phase R !! i) as [[| |] |] eqn:Hp; try done. simpl in Hstep.
    destruct (wait_poll (executor w)) as [this |] eqn:Ha; injection Hstep as <- <-; [| done].
    apply wait_poll_Some in Ha as [Hlt ->]. simpl. split.
    + apply Forall_insert; [done |].
      apply (run_step_linked r (timer r i) R); [by constructor |].
      by eapply Forall_lookup_1.
    + pose proof (executing_insert _ r R (with_phase i Executing R) HR) as H1.
      pose proof (executing_in_insert i Executing Polling R Hp) as H2. simpl in H2. lia.
  - unfold on_settle in Hstep.
    destruct (runs w !! r) as [R |] eqn:HR; [| done]. simpl in Hstep.
    destruct (run_phase R !! i) as [[| |] |] eqn:Hp; try done; simpl in Hstep;
      destruct (run_tasks R !! i) as [t |] eqn:Ht; try done. simpl in Hstep.
    injection Hstep as <- <-. simpl. split.
    + apply Forall_insert; [done |].
      apply (run_step_linked r (settle r i) R); [by constructor |].
      by eapply Forall_lookup_1.
    + pose proof (executing_insert _ r R
        (with_promise
           (notify (run_type R) (<[i := Settled (settles t)]> (run_phase R))
                   (settles t) (run_promise R))
           (with_phase i (Settled (settles t)) R)) HR) as H1.
      pose proof (executing_in_insert i (Settled (settles t)) Executing R Hp) as H2.
      assert (executing_in (with_promise
           (notify (run_type R) (<[i := Settled (settles t)]> (run_phase R))
                   (settles t) (run_promise R))
           (with_phase i (Settled (settles t)) R))
              = executing_in (with_phase i (Settled (settles t)) R)) as H3 by done.
      simpl in H2. lia.
  - apply resume_inv in Hstep as (R & HR & _ & _ & _ & ->). simpl in *. split.
    + apply Forall_insert; [done |].
      assert (linked R) as HL by by eapply Forall_lookup_1. exact HL.
    + pose proof (executing_insert _ r R (mark_returned R) HR) as H1.
      assert (executing_in (mark_returned R) = executing_in R) as H3 by done.
      lia.
Qed.

Lemma sound_trace w evs w' :
  sound w → run_events w evs = Some w' → sound w'.
Proof.
  revert w. induction evs as [| ev evs IH]; intros w Hsound Hrun.
  - by injection Hrun as <-.
  - apply run_events_cons in Hrun as (w1 & rep & Hstep & Hrun).
    eauto using sound_step.
Qed.

Lemma reachable_sound w : reachable w → sound w.
Proof.
  intros (c & opts & evs & Hrun). eapply sound_trace; [| exact Hrun].
  split; [constructor | done].
Qed.

Lemma sum_list_with_pos {A} (f : A → nat) (l : list A) :
  (0 < sum_list_with f l)%nat → ∃ i x, l !! i = Some x ∧ (0 < f x)%nat.
Proof.
  induction l as [| a l IH]; simpl; intros Hpos; [lia |].
  destruct (f a) as [| n] eqn:Ha.
  - destruct IH as (i & x & Hi & Hx); [lia |]. by exists (S i), x.
  - exists 0%nat, a. split; [done | lia].
Qed.

Lemma executing_exists w :
  (0 < executing w)%nat →
  ∃ r R i, runs w !! r = Some R ∧ run_phase R !! i = Some Executing.
Proof.
  intros (r & R & HR & (i & p & Hp & Hslot)%sum_list_with_pos)%sum_list_with_pos.
  exists r, R, i. split; [done |]. destruct p; simpl in Hslot; try lia. done.
Qed.

(** The functions that are executing can settle one after the other until
    none is left, by settlements alone; runs without an executing function
    are not touched. *)
Lemma drain w :
  Forall linked (runs w) →
  ∃ evs w', run_events w evs = Some w' ∧ executing w' = 0%nat ∧
            concurrency (executor w') = concurrency (executor w) ∧
            (∀ r R, runs w !! r = Some R → executing_in R = 0%nat →
                    runs w' !! r = Some R) ∧
            Forall runtime evs ∧ Forall background evs.
Proof.
  remember (executing w) as n eqn:Hn. revert w Hn.
  induction n as [| n IH]; intros w Hn Hlinked.
  - exists [], w. repeat split; done.
  - destruct (executing_exists w) as (r & R & i & HR & Hp); [lia |].
    assert (HL : linked R) by by eapply Forall_lookup_1.
    destruct (Forall2_lookup_l _ _ _ _ _ HL Hp) as (t & Ht & _).
    pose proof (settle_runs w r i R t HR Hp Ht) as Hstep.
    set (R1 := with_promise _ _) in Hstep.
    set (w1 := {| executor := release (executor w); runs := <[r := R1]> (runs w) |}) in Hstep.
    pose proof (executing_insert _ r R R1 HR) as H1.
    pose proof (executing_in_insert i (Settled (settles t)) Executing R Hp) as H2.
    assert (executing_in R1 = executing_in (with_phase i (Settled (settles t)) R)) as H3
      by done.
    simpl in H2.
    destruct (IH w1) as (evs & w' & Hrun & He & Hc & Hkeep & Hrt & Hbg).
    + unfold executing in *. simpl. lia.
    + simpl. apply Forall_insert; [done |].
      apply (run_step_linked r (settle r i) R); [by constructor | done].
    + exists (settle r i :: evs), w'.
      split; [| split; [done | split; [done | split; [| by split; constructor]]]].
      { apply run_events_cons. eauto. }
      intros r' R' HR' He'. apply Hkeep; [| done]. simpl.
      rewrite list_lookup_insert_ne; [done |]. intros ->.
      rewrite HR in HR'. injection HR' as <-. lia.
Qed.

Lemma executing_in_all_polling R (ts : list Task) :
  run_phase R = (λ _, Polling) <$> ts → executing_in R = 0%nat.
Proof.
  unfold executing_in. intros ->. induction ts as [| t ts IH]; [done | exact IH].
Qed.

(** * Runs *)

Lemma start_awaits ty opts w w1 r :
  start ty opts w = (w1, awaits r) →
  isRunning (executor w) = false ∧ r = length (runs w) ∧
  executor w1 = mark_running (executor w) ∧
  ∃ R, runs w1 !! r = Some R ∧
       run_type R = ty ∧ run_tasks R = queue (executor w) ∧
       run_phase R = (λ _, Polling) <$> queue (executor w) ∧
       run_returned R = false ∧ clean R ∧ linked R.
Proof.
  unfold start. destruct (isRunning (executor w)); [done |].
  intros [= <- <-]. repeat split. eexists. split.
  { simpl. by apply list_lookup_middle. }
  simpl. repeat split.
  - intros _. apply Forall_fmap, Forall_true. by intros t x.
  - unfold linked. simpl. apply Forall2_fmap_l, Forall_Forall2_diag, Forall_true.
    by intros t o.
Qed.

Lemma linked_settled ps ts rs :
  Forall2 link ps ts →
  mapM settled_result ps = Some rs →
  rs = settles <$> ts ∧ ps = (Settled ∘ settles) <$> ts.
Proof.
  intros Hlink Hrs%mapM_Some. revert rs Hrs.
  induction Hlink as [| p t ps ts Hp _ IH]; intros rs Hrs.
  - by apply Forall2_nil_inv_l in Hrs as ->.
  - apply Forall2_cons_inv_l in Hrs as (o & rs' & Ho & Hrs' & ->).
    apply settled_result_settled in Ho as ->.
    destruct (IH _ Hrs') as [-> ->].
    rewrite !fmap_cons. simpl. by rewrite <- (Hp o eq_refl).
Qed.

Lemma linked_fulfilled ps ts vs :
  Forall2 link ps ts →
  mapM fulfilled_value ps = Some vs →
  settles <$> ts = fulfilled <$> vs ∧ ps = (Settled ∘ settles) <$> ts.
Proof.
  intros Hlink Hvs%mapM_Some. revert vs Hvs.
  induction Hlink as [| p t ps ts Hp _ IH]; intros vs Hvs.
  - by apply Forall2_nil_inv_l in Hvs as ->.
  - apply Forall2_cons_inv_l in Hvs as (v & vs' & Hv & Hvs' & ->).
    apply fulfilled_value_settled in Hv as ->.
    destruct (IH _ Hvs') as [Heq ->].
    rewrite !fmap_cons, Heq. simpl. by rewrite <- (Hp _ eq_refl).
Qed.

Lemma first_rejection_none r ts evs :
  Forall (λ t, ∃ v, settles t = fulfilled v) ts → first_rejection r ts evs = None.
Proof.
  intros Hts. induction evs as [| ev evs IH]; [done |].
  rewrite first_rejection_cons, IH.
  destruct ev as [| | | | | | | r0 i |]; try done. simpl.
  destruct (decide (r0 = r)); [| done]. unfold rejection.
  destruct (ts !! i) as [t |] eqn:Ht; [| done]. simpl.
  by destruct (Forall_lookup_1 _ _ _ _ Hts Ht) as [v ->].
Qed.

Lemma fmap_fulfilled_all (ts : list Task) (vs : list any) :
  settles <$> ts = fulfilled <$> vs → Forall (λ t, ∃ v, settles t = fulfilled v) ts.
Proof.
  revert vs. induction ts as [| t ts IH]; intros [| v vs]; try done.
  intros [= Ht Hts]. constructor; eauto.
Qed.

Lemma fmap_fulfilled_inj (vs vs' : list any) :
  fulfilled <$> vs = fulfilled <$> vs' → vs = vs'.
Proof.
  revert vs'. induction vs as [| v vs IH]; intros [| v' vs']; try done.
  intros [= -> Hvs]. f_equal. by apply IH.
Qed.

(** What a call that passed the guard leaves behind, and where a trace takes
    it. *)
Lemma started_run ty opts w w1 r evs w2 :
  start ty opts w = (w1, awaits r) →
  run_events w1 evs = Some w2 →
  ∃ R, runs w2 !! r = Some R ∧
       run_type R = ty ∧ run_tasks R = queue (executor w) ∧ linked R ∧
       match ty, first_rejection r (queue (executor w)) evs with
       | All, Some x => run_promise R = Rejected x
       | _, _ => clean R
       end.
Proof.
  intros (_ & _ & _ & R0 & HR0 & Hty & Hts & _ & _ & Hclean & Hlinked)%start_awaits Hrun.
  destruct (run_events_run_steps _ _ _ _ _ Hrun HR0) as (R & HR & Hsteps).
  exists R. split; [done |].
  destruct (run_steps_fixed _ _ _ _ Hsteps) as (Hty' & Hts' & _).
  pose proof (run_steps_promise _ _ _ _ Hsteps Hclean) as Hpr.
  rewrite Hty, Hts in *. repeat split; try done.
  by eapply run_steps_linked.
Qed.

(** After a call that passed the guard in a reachable world with a limit of
    at least 1, the gate can open for the new run by settlements alone, with
    the run still as the call left it. *)
Lemma gate_opens ty opts w w1 r :
  start ty opts w = (w1, awaits r) →
  reachable w → 1 ≤ concurrency (executor w) →
  ∃ evs w' R, run_events w1 evs = Some w' ∧
              runningCount (executor w') < concurrency (executor w') ∧
              runs w' !! r = Some R ∧
              run_type R = ty ∧ run_tasks R = queue (executor w) ∧
              run_phase R = (λ _, Polling) <$> queue (executor w) ∧
              run_returned R = false ∧ clean R ∧ Forall runtime evs.
Proof.
  intros Hstart Hreach Hlimit.
  pose proof (start_sound _ _ _ _ _ Hstart (reachable_sound _ Hreach)) as Hsound.
  destruct (start_awaits _ _ _ _ _ Hstart)
    as (_ & _ & Hex & R & HR & Hty & Hts & Hps & Hret & Hclean & _).
  destruct (drain w1 (proj1 Hsound)) as (evs & w' & Hrun & He & Hc & Hkeep & Hrt & _).
  destruct (sound_trace _ _ _ Hsound Hrun) as [_ Hle].
  exists evs, w', R. split; [done |]. split.
  - rewrite He in Hle. rewrite Hc, Hex. simpl. lia.
  - split; [| done]. apply Hkeep; [done |]. by eapply executing_in_all_polling.
Qed.

(** Timers, settlements and resumptions leave the limit alone, and timers
    and settlements do not make a call return. *)
Lemma runtime_concurrency evs :
  Forall runtime evs →
  ∀ w w', run_events w evs = Some w' →
          concurrency (executor w') = concurrency (executor w).
Proof.
  induction 1 as [| ev evs Hev _ IH]; intros w w' Hrun.
  - by injection Hrun as <-.
  - apply run_events_cons in Hrun as (w1 & rep & Hstep & Hrun).
    rewrite (IH _ _ Hrun). clear IH Hrun.
    destruct ev as [| | | | | | r i | r i | r]; try done; simpl in Hstep.
    + unfold on_timer in Hstep. destruct (runs w !! r) as [R |]; [| done].
      simpl in Hstep. destruct (run_phase R !! i) as [[| |] |]; try done.
      simpl in Hstep.
      destruct (wait_poll (executor w)) as [this |] eqn:Ha; injection Hstep as <- _;
        [| done].
      by apply wait_poll_Some in Ha as [_ ->].
    + unfold on_settle in Hstep. destruct (runs w !! r) as [R |]; [| done].
      simpl in Hstep.
      destruct (run_phase R !! i) as [[| |] |]; try done; simpl in Hstep;
        destruct (run_tasks R !! i); try done.
      by injection Hstep as <- _.
    + by apply resume_inv in Hstep as (R & _ & _ & _ & _ & ->).
Qed.

Lemma run_steps_returned r evs R R' :
  run_steps r evs R R' → Forall background evs → run_returned R' = run_returned R.
Proof.
  induction 1 as [| ev evs R R1 R2 Hs _ IH]; [done |].
  intros [Hev Hevs]%Forall_cons. rewrite (IH Hevs). by destruct Hs.
Qed.

Lemma not_executing (ps : list Phase) :
  sum_list_with slot ps = 0%nat → Forall (λ p, p ≠ Executing) ps.
Proof.
  induction ps as [| p ps IH]; simpl; intros Hsum; constructor.
  - intros ->. simpl in Hsum. lia.
  - apply IH. lia.
Qed.

(** A run none of whose functions is executing, in front of an open gate:
    serving the positions that still wait, one after the other, settles
    them all. *)
Lemma finish r (rest : list Task) :
  ∀ (served : list Task) (ps : list Phase) w R,
    runs w !! r = Some R →
    run_tasks R = served ++ rest →
    run_phase R = ((Settled ∘ settles) <$> served) ++ ps →
    Forall2 link ps rest →
    Forall (λ p, p ≠ Executing) ps →
    runningCount (executor w) < concurrency (executor w) →
    ∃ evs R', Forall runtime evs ∧ Forall background evs ∧
              run_events w evs =
                Some {| executor := executor w; runs := <[r := R']> (runs w) |} ∧
              run_phase R' = (Settled ∘ settles) <$> (served ++ rest).
Proof.
  induction rest as [| t rest IH]; intros served ps w R HR Hts Hps Hlink Hne Hgate.
  - apply Forall2_nil_inv_r in Hlink as ->. exists [], R.
    rewrite app_nil_r in *. split; [done |]. split; [done |]. split; [| done].
    simpl. rewrite list_insert_id by done. by destruct w.
  - apply Forall2_cons_inv_r in Hlink as (p & ps' & Hp & Hlink & ->).
    apply Forall_cons in Hne as [Hpne Hne].
    assert (Hlen : length ((Settled ∘ settles) <$> served) = length served)
      by apply length_fmap.
    destruct p as [| | o]; [| done |].
    + assert (Hpoll : run_phase R !! length served = Some Polling).
      { rewrite Hps, lookup_app_r by lia. by rewrite Hlen, Nat.sub_diag. }
      assert (Ht : run_tasks R !! length served = Some t).
      { rewrite Hts, lookup_app_r by lia. by rewrite Nat.sub_diag. }
      pose proof (serve _ _ _ _ _ HR Hpoll Ht Hgate) as Hserve.
      set (R1 := with_promise _ _) in Hserve.
      set (w1 := {| executor := executor w; runs := <[r := R1]> (runs w) |}) in Hserve.
      destruct (IH (served ++ [t]) ps' w1 R1) as (evs & R' & Hrt & Hbg & Hrun & Hps').
      * simpl. apply list_lookup_insert_eq. by eapply lookup_lt_Some.
      * simpl. rewrite Hts. by rewrite <- app_assoc.
      * simpl. rewrite Hps. rewrite fmap_app, <- app_assoc. simpl.
        rewrite insert_app_r_alt by lia. by rewrite Hlen, Nat.sub_diag.
      * done.
      * done.
      * done.
      * exists ([timer r (length served); settle r (length served)] ++ evs), R'.
        split; [by repeat constructor |]. split; [by repeat constructor |].
        split; [| rewrite <- app_assoc in Hps'; done].
        apply run_events_app. exists w1. split; [exact Hserve |].
        rewrite Hrun. simpl. by rewrite list_insert_insert_eq.
    + destruct (IH (served ++ [t]) ps' w R) as (evs & R' & Hrt & Hbg & Hrun & Hps');
        try done.
      * rewrite Hts. by rewrite <- app_assoc.
      * rewrite Hps. rewrite fmap_app, <- app_assoc. simpl.
        by rewrite (Hp o eq_refl).
      * exists evs, R'. rewrite <- app_assoc in Hps'. done.
Qed.

(** A pending call never gets stuck.  In a world reached from a call that
    passed the guard, in a reachable world with a limit of at least 1, by
    timers, settlements and resumptions, as long as the call has not
    returned: settling what is executing and then serving what still waits
    settles every position of the run, with the call still pending. *)
Lemma pending_can_finish ty opts w w1 r :
  start ty opts w = (w1, awaits r) →
  reachable w → 1 ≤ concurrency (executor w) →
  ∀ evs1 w2,
    Forall runtime evs1 → run_events w1 evs1 = Some w2 →
    flags w2 !! r = Some false →
    ∃ evs2 w3 R, Forall runtime evs2 ∧ run_events w2 evs2 = Some w3 ∧
                 runs w3 !! r = Some R ∧
                 run_phase R = (Settled ∘ settles) <$> queue (executor w) ∧
                 run_returned R = false.
Proof.
  intros Hstart Hreach Hlimit evs1 w2 Hevs1 Hrun1 Hpend.
  pose proof (start_sound _ _ _ _ _ Hstart (reachable_sound _ Hreach)) as Hsound1.
  pose proof (sound_trace _ _ _ Hsound1 Hrun1) as Hsound2.
  destruct (start_awaits _ _ _ _ _ Hstart) as (_ & _ & Hex & R0 & HR0 & _ & Hts0 & _).
  destruct (run_events_run_steps _ _ _ _ _ Hrun1 HR0) as (R2 & HR2 & Hsteps2).
  assert (Hret2 : run_returned R2 = false).
  { unfold flags in Hpend. rewrite list_lookup_fmap, HR2 in Hpend. by injection Hpend. }
  destruct (drain w2 (proj1 Hsound2)) as (evsd & w3 & Hrund & He & Hc & _ & Hrtd & Hbgd).
  pose proof (sound_trace _ _ _ Hsound2 Hrund) as [Hlinked3 Hle3].
  destruct (run_events_run_steps _ _ _ _ _ Hrund HR2) as (R3 & HR3 & Hsteps3).
  assert (Hgate : runningCount (executor w3) < concurrency (executor w3)).
  { rewrite He in Hle3. rewrite Hc, (runtime_concurrency _ Hevs1 _ _ Hrun1), Hex.
    simpl. lia. }
  assert (Hts3 : run_tasks R3 = queue (executor w)).
  { destruct (run_steps_fixed _ _ _ _ Hsteps3) as (_ & -> & _).
    destruct (run_steps_fixed _ _ _ _ Hsteps2) as (_ & -> & _). done. }
  assert (Hidle3 : executing_in R3 = 0%nat).
  { unfold executing in He.
    pose proof (sum_list_with_in _ executing_in _ (list_elem_of_lookup_2 _ _ _ HR3)).
    lia. }
  destruct (finish r (queue (executor w)) [] (run_phase R3) w3 R3)
    as (evsf & R' & Hrtf & Hbgf & Hrunf & Hps'); try done.
  { rewrite <- Hts3. by apply (Forall_lookup_1 _ _ _ _ Hlinked3 HR3). }
  { by apply not_executing. }
  exists (evsd ++ evsf), {| executor := executor w3; runs := <[r := R']> (runs w3) |}, R'.
  split; [by apply Forall_app |]. split; [apply run_events_app; eauto |].
  assert (HR' : runs {| executor := executor w3; runs := <[r := R']> (runs w3) |} !! r
                = Some R').
  { simpl. apply list_lookup_insert_eq. by eapply lookup_lt_Some. }
  split; [done |]. split; [done |].
  destruct (run_events_run_steps _ _ _ _ _ Hrunf HR3) as (R'' & HR'' & Hstepsf).
  rewrite HR' in HR''. injection HR'' as <-.
  rewrite (run_steps_returned _ _ _ _ Hstepsf Hbgf).
  by rewrite (run_steps_returned _ _ _ _ Hsteps3 Hbgd).
Qed.

(** * Collecting every result: [executeAllSettled] *)

(** C2: a call of [executeAllSettled] that passed the guard never ends in a
    rejection.  Whatever the interleaving, once the call returns, every
    queued function has settled and the result lists, position by position
    in queue order, how each one settled; there are as many results as
    queued functions.  And the call does not get stuck: made in a reachable
    world with a limit of at least 1, then wherever timers, settlements and
    resumptions have taken it, as long as it is pending, timers, settlements
    and resumptions alone can make it return, with exactly that result. *)
Theorem executeAllSettled_collects_all (w : World)
    (opts : option PromiseConcurrentExecutorOption) (w1 : World) (r : nat) :
  executeAllSettled opts w = (w1, awaits r) →
  (∀ evs w2 w3 rep,
     run_events w1 evs = Some w2 →
     step w2 (resume r) = Some (w3, rep) →
     rep = delivers (ResolvedAllSettled (settles <$> queue (executor w))) ∧
     length (settles <$> queue (executor w)) = length (queue (executor w)) ∧
     ∃ R, runs w2 !! r = Some R ∧
          run_phase R = (Settled ∘ settles) <$> queue (executor w)) ∧
  (reachable w → 1 ≤ concurrency (executor w) →
   ∀ evs1 w2,
     Forall runtime evs1 → run_events w1 evs1 = Some w2 →
     flags w2 !! r = Some false →
     ∃ evs2 w3 w4,
       Forall runtime evs2 ∧
       run_events w2 evs2 = Some w3 ∧
       step w3 (resume r) =
         Some (w4, delivers (ResolvedAllSettled (settles <$> queue (executor w))))).
Proof.
  intros Hstart. split.
  - intros evs w2 w3 rep Hrun Hres.
    destruct (started_run _ _ _ _ _ _ _ Hstart Hrun)
      as (R & HR & Hty & Hts & Hlinked & [Hpr _]).
    apply resume_inv in Hres as (R' & HR' & Hne & _ & -> & _).
    rewrite HR in HR'. injection HR' as <-.
    rewrite Hpr, Hty in Hne |- *. unfold combine in *.
    destruct (mapM settled_result (run_phase R)) as [rs |] eqn:Hrs; [| done].
    unfold linked in Hlinked. rewrite Hts in Hlinked.
    destruct (linked_settled _ _ _ Hlinked Hrs) as [-> Hps].
    split; [done |]. split; [apply length_fmap |]. eauto.
  - intros Hreach Hlimit evs1 w2 Hevs1 Hrun1 Hpend.
    destruct (pending_can_finish _ _ _ _ _ Hstart Hreach Hlimit _ _ Hevs1 Hrun1 Hpend)
      as (evs2 & w3 & R & Hrt & Hrun2 & HR & Hps & Hret).
    assert (Hrun : run_events w1 (evs1 ++ evs2) = Some w3)
      by (apply run_events_app; eauto).
    destruct (started_run _ _ _ _ _ _ _ Hstart Hrun)
      as (R' & HR' & Hty & _ & _ & [Hpr _]).
    rewrite HR in HR'. injection HR' as <-.
    exists evs2, w3. eexists. split; [done |]. split; [done |].
    rewrite Hty, Hps, combine_allSettled_done in Hpr.
    rewrite (resume_runs _ _ _ HR); by rewrite ?Hpr.
Qed.

Lemma executeAllSettled_collects_all_witness :
  ∃ evs2 w3 w4,
    Forall runtime evs2 ∧
    run_events
      (after (executeAllSettled None (loaded (Some 1) [resolve 100; reject 1; resolve 100])).1
             [timer 0 2; timer 0 0; settle 0 2]%nat)
      evs2 = Some w3 ∧
    step w3 (resume 0) =
      Some (w4, delivers (ResolvedAllSettled
                            [fulfilled (Num 100); rejected (Num 1); fulfilled (Num 100)])).
Proof.
  apply (proj2 (executeAllSettled_collects_all
           (loaded (Some 1) [resolve 100; reject 1; resolve 100]) None
           (executeAllSettled None (loaded (Some 1) [resolve 100; reject 1; resolve 100])).1
           0%nat eq_refl)) with (evs1 := [timer 0 2; timer 0 0; settle 0 2]%nat).
  - exists (Some 1), None, [call_addAll [resolve 100; reject 1; resolve 100]]. reflexivity.
  - simpl. lia.
  - repeat constructor.
  - reflexivity.
  - reflexivity.
Defined.

(** The scenario of the specification: limit 3, five functions that take
    1000, 2000, 3000, 500 and 550 ms.  Three pass the gate at the first tick,
    the fourth and the fifth as slots come free; they finish in the order
    1st, 4th, 2nd, 5th, 3rd, and the results come in queue order. *)
Example executeAllSettled_scenario :
  replies (loaded (Some 3) [resolve 1000; resolve 2000; resolve 3000; resolve 500; resolve 550])
    [call_executeAllSettled None;
     timer 0 0; timer 0 1; timer 0 2; timer 0 3; timer 0 4;
     settle 0 0; timer 0 3; timer 0 4;
     settle 0 3; timer 0 4;
     settle 0 1; settle 0 4; settle 0 2;
     resume 0]%nat
  = Some [awaits 0%nat;
          quiet; quiet; quiet; quiet; quiet;
          quiet; quiet; quiet;
          quiet; quiet;
          quiet; quiet; quiet;
          delivers (ResolvedAllSettled
                      [fulfilled (Num 1000); fulfilled (Num 2000); fulfilled (Num 3000);
                       fulfilled (Num 500); fulfilled (Num 550)])].
Proof. reflexivity. Qed.

(** * Failing fast: [executeAll] *)

(** C4: when every queued function fulfils, a call of [executeAll] that
    passed the guard returns the fulfilled values by queue position,
    whatever the interleaving and so whatever the order of completion.  And
    the call does not get stuck: made in a reachable world with a limit of
    at least 1, then wherever timers, settlements and resumptions have taken
    it, as long as it is pending, timers, settlements and resumptions alone
    can make it return, with exactly these values. *)
Theorem executeAll_values_in_queue_order (w : World)
    (opts : option PromiseConcurrentExecutorOption) (w1 : World) (r : nat)
    (vs : list any) :
  executeAll opts w = (w1, awaits r) →
  settles <$> queue (executor w) = fulfilled <$> vs →
  (∀ evs w2 w3 rep,
     run_events w1 evs = Some w2 →
     step w2 (resume r) = Some (w3, rep) →
     rep = delivers (ResolvedAll vs)) ∧
  (reachable w → 1 ≤ concurrency (executor w) →
   ∀ evs1 w2,
     Forall runtime evs1 → run_events w1 evs1 = Some w2 →
     flags w2 !! r = Some false →
     ∃ evs2 w3 w4,
       Forall runtime evs2 ∧
       run_events w2 evs2 = Some w3 ∧
       step w3 (resume r) = Some (w4, delivers (ResolvedAll vs))).
Proof.
  intros Hstart Hvs. pose proof (fmap_fulfilled_all _ _ Hvs) as Hful. split.
  - intros evs w2 w3 rep Hrun Hres.
    destruct (started_run _ _ _ _ _ _ _ Hstart Hrun)
      as (R & HR & Hty & Hts & Hlinked & Hpr).
    rewrite (first_rejection_none _ _ _ Hful) in Hpr. destruct Hpr as [Hpr _].
    apply resume_inv in Hres as (R' & HR' & Hne & _ & -> & _).
    rewrite HR in HR'. injection HR' as <-.
    rewrite Hpr, Hty in Hne |- *. unfold combine in *.
    destruct (mapM fulfilled_value (run_phase R)) as [vs' |] eqn:Hvs'; [| done].
    unfold linked in Hlinked. rewrite Hts in Hlinked.
    destruct (linked_fulfilled _ _ _ Hlinked Hvs') as [Heq _].
    rewrite Hvs in Heq. by rewrite (fmap_fulfilled_inj _ _ Heq).
  - intros Hreach Hlimit evs1 w2 Hevs1 Hrun1 Hpend.
    destruct (pending_can_finish _ _ _ _ _ Hstart Hreach Hlimit _ _ Hevs1 Hrun1 Hpend)
      as (evs2 & w3 & R & Hrt & Hrun2 & HR & Hps & Hret).
    assert (Hrun : run_events w1 (evs1 ++ evs2) = Some w3)
      by (apply run_events_app; eauto).
    destruct (started_run _ _ _ _ _ _ _ Hstart Hrun)
      as (R' & HR' & Hty & _ & _ & Hpr).
    rewrite HR in HR'. injection HR' as <-.
    rewrite (first_rejection_none _ _ _ Hful) in Hpr. destruct Hpr as [Hpr _].
    exists evs2, w3. eexists. split; [done |]. split; [done |].
    rewrite Hty, Hps, (combine_all_done _ _ Hvs) in Hpr.
    rewrite (resume_runs _ _ _ HR); by rewrite ?Hpr.
Qed.

Lemma executeAll_values_in_queue_order_witness :
  ∃ evs2 w3 w4,
    Forall runtime evs2 ∧
    run_events
      (after (executeAll None (loaded (Some 2) [resolve 1000; resolve 10; resolve 500])).1
             [timer 0 0; timer 0 1; settle 0 1]%nat)
      evs2 = Some w3 ∧
    step w3 (resume 0) = Some (w4, delivers (ResolvedAll [Num 1000; Num 10; Num 500])).
Proof.
  apply (proj2 (executeAll_values_in_queue_order
           (loaded (Some 2) [resolve 1000; resolve 10; resolve 500]) None
           (executeAll None (loaded (Some 2) [resolve 1000; resolve 10; resolve 500])).1
           0%nat [Num 1000; Num 10; Num 500] eq_refl eq_refl))
    with (evs1 := [timer 0 0; timer 0 1; settle 0 1]%nat).
  - exists (Some 2), None, [call_addAll [resolve 1000; resolve 10; resolve 500]]. reflexivity.
  - simpl. lia.
  - repeat constructor.
  - reflexivity.
  - reflexivity.
Defined.

(** Limit 2, functions that take 1000, 10 and 500 ms: they finish in the
    order 2nd, 3rd, 1st, and the values come in queue order. *)
Example executeAll_out_of_order :
  replies (loaded (Some 2) [resolve 1000; resolve 10; resolve 500])
    [call_executeAll None;
     timer 0 0; timer 0 1; timer 0 2;
     settle 0 1; timer 0 2; settle 0 2; settle 0 0;
     resume 0]%nat
  = Some [awaits 0%nat; quiet; quiet; quiet; quiet; quiet; quiet; quiet;
          delivers (ResolvedAll [Num 1000; Num 10; Num 500])].
Proof. reflexivity. Qed.

(** C3: when some queued function rejects, a call of [executeAll] that
    passed the guard can only end in a rejection, and the reason is that of
    the first rejection of the trace, that is, of the function of this run
    that rejected earliest in real time.  Nothing is cancelled by the
    failure: the positions of the run are where they were, and each function
    still executing can settle afterwards.  What settles afterwards does not
    change the reason.  For a call made in a reachable world with a limit of
    at least 1: any rejecting position, not only the first one in the queue,
    can be the one that decides, by timers and settlements alone; and the
    call does not get stuck: wherever timers, settlements and resumptions
    have taken it, as long as it is pending, timers, settlements and
    resumptions alone can make it fail. *)
Theorem executeAll_first_rejection_wins (w : World)
    (opts : option PromiseConcurrentExecutorOption) (w1 : World) (r : nat) :
  executeAll opts w = (w1, awaits r) →
  Exists (λ t, ∃ x, settles t = rejected x) (queue (executor w)) →
  (∀ evs w2 w3 rep,
     run_events w1 evs = Some w2 →
     step w2 (resume r) = Some (w3, rep) →
     ∃ x, first_rejection r (queue (executor w)) evs = Some x ∧
          rep = delivers (Rejected x) ∧
          (∃ R2 R3, runs w2 !! r = Some R2 ∧ runs w3 !! r = Some R3 ∧
                    run_phase R3 = run_phase R2 ∧
                    ∀ i, run_phase R2 !! i = Some Executing →
                         ∃ w4 t, queue (executor w) !! i = Some t ∧
                                 step w3 (settle r i) = Some (w4, quiet) ∧
                                 (run_phase <$> runs w4 !! r) =
                                   Some (<[i := Settled (settles t)]> (run_phase R2))) ∧
          (∀ evs' w4, run_events w3 evs' = Some w4 →
                      run_promise <$> runs w4 !! r = Some (Rejected x))) ∧
  (reachable w → 1 ≤ concurrency (executor w) →
   (∀ i t x, queue (executor w) !! i = Some t → settles t = rejected x →
      ∃ evs w2 w3, Forall runtime evs ∧
                   run_events w1 evs = Some w2 ∧
                   step w2 (resume r) = Some (w3, delivers (Rejected x))) ∧
   (∀ evs1 w2,
      Forall runtime evs1 → run_events w1 evs1 = Some w2 →
      flags w2 !! r = Some false →
      ∃ evs2 w3 w4 x,
        Forall runtime evs2 ∧
        run_events w2 evs2 = Some w3 ∧
        step w3 (resume r) = Some (w4, delivers (Rejected x)))).
Proof.
  intros Hstart Hrej. split.
  - intros evs w2 w3 rep Hrun Hres.
    destruct (started_run _ _ _ _ _ _ _ Hstart Hrun)
      as (R & HR & Hty & Hts & Hlinked & Hpr).
    apply resume_inv in Hres as (R' & HR' & Hne & _ & -> & ->).
    rewrite HR in HR'. injection HR' as <-.
    assert (Hlt : (r < length (runs w2))%nat) by by eapply lookup_lt_Some.
    destruct (first_rejection r (queue (executor w)) evs) as [x |] eqn:Hfirst.
    + exists x. split; [done |]. split; [by rewrite Hpr |]. split.
      * exists R, (mark_returned R). split; [done |]. simpl.
        split; [by apply list_lookup_insert_eq |]. split; [done |].
        intros i Hi.
        destruct (Forall2_lookup_l _ _ _ _ _ Hlinked Hi) as (t & Ht & _).
        eexists _, t. split; [by rewrite <- Hts |]. split.
        -- apply (settle_runs _ r i (mark_returned R)); simpl; try done.
           by apply list_lookup_insert_eq.
        -- simpl. rewrite list_lookup_insert_eq; [done |].
           by rewrite length_insert.
      * intros evs' w4 Hrun'.
        destruct (run_events_run_steps r evs'
                    {| executor := init (executor w2);
                       runs := <[r := mark_returned R]> (runs w2) |} w4 (mark_returned R) Hrun')
          as (R4 & HR4 & Hsteps); [by apply list_lookup_insert_eq |].
        rewrite HR4. simpl. f_equal.
        rewrite (run_steps_settled_promise _ _ _ _ Hsteps); simpl; by rewrite Hpr.
    + exfalso. destruct Hpr as [Hpr _].
      rewrite Hpr, Hty in Hne. unfold combine in Hne.
      destruct (mapM fulfilled_value (run_phase R)) as [vs |] eqn:Hvs; [| done].
      unfold linked in Hlinked. rewrite Hts in Hlinked.
      destruct (linked_fulfilled _ _ _ Hlinked Hvs) as [Heq _].
      apply fmap_fulfilled_all in Heq.
      apply Exists_exists in Hrej as (t & Hin & x & Hx).
      apply (proj1 (Forall_forall _ _)) with (x := t) in Heq; [| done].
      destruct Heq as [v Hv]. congruence.
  - intros Hreach Hlimit. split.
    + intros i t x Hi Hx.
      destruct (gate_opens _ _ _ _ _ Hstart Hreach Hlimit)
        as (evs & w' & R0 & Hrun & Hgate & HR0 & Hty & Hts & Hps & Hret & [Hpr _] & Hrt).
      assert (Hp : run_phase R0 !! i = Some Polling).
      { rewrite Hps, list_lookup_fmap, Hi. done. }
      assert (HP : run_promise R0 = Pending).
      { rewrite Hpr. by eapply combine_lookup_unsettled. }
      exists (evs ++ [timer r i; settle r i]). eexists _, _.
      split; [apply Forall_app; split; [done | by repeat constructor] |]. split.
      * apply run_events_app. exists w'. split; [done |].
        apply (serve w' r i R0 t); [done | done | by rewrite Hts | done].
      * rewrite (resume_runs _ r
                   (with_promise (Rejected x) (with_phase i (Settled (settles t)) R0))).
        -- done.
        -- simpl. rewrite HP, Hty, Hx. simpl.
           apply list_lookup_insert_eq. by eapply lookup_lt_Some.
        -- done.
        -- done.
    + intros evs1 w2 Hevs1 Hrun1 Hpend.
      destruct (pending_can_finish _ _ _ _ _ Hstart Hreach Hlimit _ _ Hevs1 Hrun1 Hpend)
        as (evs2 & w3 & R & Hrt & Hrun2 & HR & Hps & Hret).
      assert (Hrun : run_events w1 (evs1 ++ evs2) = Some w3)
        by (apply run_events_app; eauto).
      destruct (started_run _ _ _ _ _ _ _ Hstart Hrun)
        as (R' & HR' & Hty & _ & _ & Hpr).
      rewrite HR in HR'. injection HR' as <-.
      destruct (first_rejection r (queue (executor w)) (evs1 ++ evs2)) as [x |].
      * exists evs2, w3. eexists _, x. split; [done |]. split; [done |].
        rewrite (resume_runs _ _ _ HR); by rewrite ?Hpr.
      * exfalso. destruct Hpr as [_ Hun]. specialize (Hun Hty). rewrite Hps in Hun.
        apply Exists_exists in Hrej as (t & Hin & x & Hx).
        apply (proj1 (Forall_forall _ _)) with (x := Settled (settles t)) in Hun.
        -- by apply (Hun x); rewrite Hx.
        -- apply (list_elem_of_fmap_2 (Settled ∘ settles)) in Hin. exact Hin.
Qed.

Lemma executeAll_first_rejection_wins_witness :
  ∃ evs w2 w3,
    Forall runtime evs ∧
    run_events (executeAll None (loaded (Some 3) [resolve 1000; reject 1001; reject 1002])).1
               evs = Some w2 ∧
    step w2 (resume 0) = Some (w3, delivers (Rejected (Num 1002))).
Proof.
  assert (Hrej : Exists (λ t, ∃ x, settles t = rejected x)
                   (queue (executor (loaded (Some 3) [resolve 1000; reject 1001; reject 1002])))).
  { apply Exists_cons_tl, Exists_cons_hd. eexists. reflexivity. }
  destruct (executeAll_first_rejection_wins
              (loaded (Some 3) [resolve 1000; reject 1001; reject 1002]) None
              (executeAll None (loaded (Some 3) [resolve 1000; reject 1001; reject 1002])).1
              0%nat eq_refl Hrej) as [_ Hlive].
  apply (proj1 (Hlive
           (ex_intro _ (Some 3) (ex_intro _ None
              (ex_intro _ [call_addAll [resolve 1000; reject 1001; reject 1002]] eq_refl)))
           ltac:(simpl; lia)) 2%nat (reject 1002) (Num 1002) eq_refl eq_refl).
Defined.

(** The scenario of the specification: limit 3, outcomes resolve 1000,
    reject 1001, resolve 1002.  The call fails with 1001 as soon as the
    second function has settled; the third is still executing then, settles
    later, and decrements the running count below zero. *)
Example executeAll_scenario :
  replies (loaded (Some 3) [resolve 1000; reject 1001; resolve 1002])
    [call_executeAll None;
     timer 0 0; timer 0 1; timer 0 2;
     settle 0 0; settle 0 1; resume 0; settle 0 2]%nat
  = Some [awaits 0%nat; quiet; quiet; quiet; quiet; quiet;
          delivers (Rejected (Num 1001)); quiet].
Proof. reflexivity. Qed.

(** The reason is that of the earliest rejection, not of the first rejecting
    position of the queue. *)
Example executeAll_not_queue_order :
  replies (loaded (Some 2) [reject 1; reject 2])
    [call_executeAll None; timer 0 0; timer 0 1; settle 0 1; resume 0; settle 0 0]%nat
  = Some [awaits 0%nat; quiet; quiet; quiet; delivers (Rejected (Num 2)); quiet].
Proof. reflexivity. Qed.

(** * The end of a run *)

Lemma background_step w ev w' rep :
  background ev → step w ev = Some (w', rep) →
  queue (executor w') = queue (executor w) ∧
  isRunning (executor w') = isRunning (executor w).
Proof.
  destruct ev as [| | | n | | | r i | r i |]; try done; intros _; simpl.
  - by intros [= <- _].
  - unfold on_timer. destruct (runs w !! r) as [R |]; [| done]. simpl.
    destruct (run_phase R !! i) as [[| |] |]; try done. simpl.
    destruct (wait_poll (executor w)) as [this |] eqn:Ha; intros [= <- _]; [| done].
    by apply wait_poll_Some in Ha as [_ ->].
  - unfold on_settle. destruct (runs w !! r) as [R |]; [| done]. simpl.
    destruct (run_phase R !! i) as [[| |] |]; try done; simpl;
      destruct (run_tasks R !! i); try done. simpl. by intros [= <- _].
Qed.

Lemma background_trace w evs w' :
  Forall background evs → run_events w evs = Some w' →
  queue (executor w') = queue (executor w) ∧
  isRunning (executor w') = isRunning (executor w).
Proof.
  intros Hevs. revert w. induction Hevs as [| ev evs Hev _ IH]; intros w Hrun.
  - by injection Hrun as <-.
  - apply run_events_cons in Hrun as (w1 & rep & Hstep & Hrun).
    destruct (background_step _ _ _ _ Hev Hstep) as [<- <-]. by apply IH.
Qed.

(** C8: when a run ends, with a result or with a failure, the queue is empty
    ([size] is 0) and the in-progress flag is cleared.  This still holds
    after any timer callbacks, settlements and limit changes that follow,
    and a run started then, with nothing added in between, delivers an empty
    result. *)
Theorem run_end_resets (w : World) (r : nat) (w1 : World) (rep : Reply) :
  step w (resume r) = Some (w1, rep) →
  size (executor w1) = 0 ∧ isRunning (executor w1) = false ∧
  ∀ evs w2,
    Forall background evs → run_events w1 evs = Some w2 →
    size (executor w2) = 0 ∧ isRunning (executor w2) = false ∧
    ∀ ty opts, ∃ w3 w4,
      start ty opts w2 = (w3, awaits (length (runs w2))) ∧
      step w3 (resume (length (runs w2))) =
        Some (w4, delivers (match ty with
                            | All => ResolvedAll []
                            | AllSettled => ResolvedAllSettled []
                            end)) ∧
      size (executor w4) = 0 ∧ isRunning (executor w4) = false.
Proof.
  intros (R & _ & _ & _ & _ & ->)%resume_inv.
  split; [done |]. split; [done |].
  intros evs w2 Hevs Hrun.
  destruct (background_trace _ _ _ Hevs Hrun) as [Hq Hidle]. simpl in Hq, Hidle.
  unfold size. rewrite Hq. split; [done |]. split; [done |].
  intros ty opts. rewrite (start_idle _ _ _ Hidle), Hq.
  eexists _, _. split; [reflexivity |].
  erewrite resume_runs;
    [| by apply list_lookup_middle | simpl; by destruct ty | done].
  simpl. by destruct ty.
Qed.

Lemma run_end_resets_witness :
  ∃ w3 w4,
    start All None
      (after (loaded (Some 2) [reject 7])
             [call_executeAll None; timer 0 0; settle 0 0; resume 0]%nat)
    = (w3, awaits 1%nat) ∧
    step w3 (resume 1) = Some (w4, delivers (ResolvedAll [])) ∧
    size (executor w4) = 0 ∧ isRunning (executor w4) = false.
Proof.
  destruct (run_end_resets
              (after (loaded (Some 2) [reject 7])
                     [call_executeAll None; timer 0 0; settle 0 0]%nat)
              0%nat _ _ eq_refl) as (_ & _ & H).
  destruct (H [] _ ltac:(constructor) eq_refl) as (_ & _ & H').
  exact (H' All None).
Defined.

(** * The running count *)

(** C1: the limit is exceeded after a failed [executeAll].  Limit 2; the
    first run holds a function that rejects and one that is still executing
    then.  The failure resets the running count to 0 under the executing
    function, whose [finally] then takes it to -1.  The next run, of three
    functions, finds the gate open three times: all three execute at once
    while the limit is 2. *)
Theorem limit_exceeded_after_failed_executeAll :
  (λ w, (getConcurrency (executor w), isRunning (executor w),
         runningCount (executor w), executing w, run_phase <$> runs w !! 1%nat))
    <$> run_events (loaded (Some 2) [reject 1; resolve 2])
          [call_executeAll None; timer 0 0; timer 0 1;
           settle 0 0; resume 0; settle 0 1;
           call_addAll [resolve 3; resolve 4; resolve 5];
           call_executeAll None; timer 1 0; timer 1 1; timer 1 2]%nat
  = Some (2, true, 2, 3%nat, Some [Executing; Executing; Executing]).
Proof. reflexivity. Qed.

(** The same defect seen on the count itself: limit 3, the run fails while
    two functions are executing; when the first of them settles, the count
    is -1 and the other one is still executing. *)
Example running_count_negative_after_failed_executeAll :
  (λ w, (runningCount (executor w), executing w))
    <$> run_events (loaded (Some 3) [reject 1; resolve 2; resolve 3])
          [call_executeAll None; timer 0 0; timer 0 1; timer 0 2;
           settle 0 0; resume 0; settle 0 1]%nat
  = Some (-1, 1%nat).
Proof. reflexivity. Qed.

(** C7 as stated fails when the limit is lowered under running functions:
    limit 3, three functions past the gate, then [setConcurrency(1)]: the count
    is 3, above the limit of 1, and stays there until functions settle. *)
Lemma running_count_above_lowered_limit :
  (λ w, (runningCount (executor w), concurrency (executor w), executing w))
    <$> run_events (loaded (Some 3) [resolve 1; resolve 2; resolve 3])
          [call_executeAllSettled None; timer 0 0; timer 0 1; timer 0 2;
           call_setConcurrency 1]%nat
  = Some (3, 1, 3%nat).
Proof. reflexivity. Qed.

Lemma counted_step w ev w' rep :
  counted w → calm_at w ev → step w ev = Some (w', rep) → counted w'.
Proof.
  intros [Hn Hle] Hcalm Hstep. unfold counted, executing in *.
  destruct ev as [f | fs | f opts | n | opts | opts | r i | r i | r]; simpl in Hstep.
  - unfold add in Hstep. destruct (isRunning (executor w)); unchanged.
  - destruct (isRunning (executor w)) eqn:Hrun.
    + destruct fs as [| f fs]; [unchanged |].
      rewrite addAll_running in Hstep by done. unchanged.
    + rewrite addAll_idle in Hstep by done. unchanged.
  - injection Hstep as Hstep. unfold addWithAutoExecute in Hstep.
    destruct (auto_execute _ _) as [a |]; [| unchanged].
    destruct (_ <=? _); [| unchanged].
    destruct (type a); apply start_counts in Hstep as (H1 & -> & ->);
      unfold executing in H1; rewrite H1; done.
  - simplify_eq. simpl in *. done.
  - injection Hstep as Hstep. apply start_counts in Hstep as (H1 & -> & ->).
    unfold executing in H1. by rewrite H1.
  - injection Hstep as Hstep. apply start_counts in Hstep as (H1 & -> & ->).
    unfold executing in H1. by rewrite H1.
  - unfold on_timer in Hstep.
    destruct (runs w !! r) as [R |] eqn:HR; [| done]. simpl in Hstep.
    destruct (run_phase R !! i) as [[| |] |] eqn:Hp; try done. simpl in Hstep.
    destruct (wait_poll (executor w)) as [this |] eqn:Ha; injection Hstep as <- <-; [| done].
    apply wait_poll_Some in Ha as [Hlt ->]. simpl.
    pose proof (executing_insert _ r R (with_phase i Executing R) HR) as H1.
    pose proof (executing_in_insert i Executing Polling R Hp) as H2. simpl in H2. lia.
  - unfold on_settle in Hstep.
    destruct (runs w !! r) as [R |] eqn:HR; [| done]. simpl in Hstep.
    destruct (run_phase R !! i) as [[| |] |] eqn:Hp; try done; simpl in Hstep;
      destruct (run_tasks R !! i) as [t |]; try done. simpl in Hstep.
    injection Hstep as <- <-. simpl.
    pose proof (executing_insert _ r R
      (with_promise
         (notify (run_type R) (<[i := Settled (settles t)]> (run_phase R))
                 (settles t) (run_promise R))
         (with_phase i (Settled (settles t)) R)) HR) as H1.
    pose proof (executing_in_insert i (Settled (settles t)) Executing R Hp) as H2.
    assert (executing_in (with_promise
         (notify (run_type R) (<[i := Settled (settles t)]> (run_phase R))
                 (settles t) (run_promise R))
         (with_phase i (Settled (settles t)) R))
            = executing_in (with_phase i (Settled (settles t)) R)) as H3 by done.
    simpl in H2. lia.
  - apply resume_inv in Hstep as (R & HR & _ & _ & _ & ->). simpl in *.
    pose proof (executing_insert _ r R (mark_returned R) HR) as H1.
    assert (executing_in (mark_returned R) = executing_in R) as H3 by done.
    unfold executing in Hcalm. lia.
Qed.

(** C7, amended: on an object constructed with a limit that is not
    negative, as long as the limit is never set below the running count and
    no run ends while a function is still executing, the running count is
    at least 0 and at most the limit after every job, and it is the number
    of functions that are executing. *)
Theorem running_count_within_limit (c : option Z)
    (opts : option PromiseConcurrentExecutorOption) (evs : list Event) (w : World) :
  0 ≤ getConcurrency (constructor c opts) →
  calm (new c opts) evs →
  run_events (new c opts) evs = Some w →
  0 ≤ runningCount (executor w) ≤ concurrency (executor w) ∧
  runningCount (executor w) = Z.of_nat (executing w).
Proof.
  intros Hc Hcalm Hrun.
  assert (Hcounted : counted w).
  { assert (H0 : counted (new c opts)) by (split; [done | exact Hc]).
    revert Hcalm Hrun H0. generalize (new c opts) as w0.
    induction evs as [| ev evs IH]; intros w0 Hcalm Hrun H0.
    - by injection Hrun as <-.
    - simpl in Hcalm, Hrun. destruct Hcalm as [Hev Hcalm].
      destruct (step w0 ev) as [[w1 rep] |] eqn:Hstep; [| done].
      eapply IH; eauto using counted_step. }
  destruct Hcounted as [Hn Hle]. split; [| done]. lia.
Qed.

Lemma running_count_within_limit_witness :
  0 ≤ runningCount (executor (after (new (Some 2) None)
        [call_addAll [resolve 1; reject 2; resolve 3]; call_executeAll None;
         timer 0 0; timer 0 1; timer 0 2; settle 0 0; settle 0 1; resume 0;
         call_setConcurrency 1; timer 0 2]%nat))
    ≤ concurrency (executor (after (new (Some 2) None)
        [call_addAll [resolve 1; reject 2; resolve 3]; call_executeAll None;
         timer 0 0; timer 0 1; timer 0 2; settle 0 0; settle 0 1; resume 0;
         call_setConcurrency 1; timer 0 2]%nat)) ∧
  runningCount (executor (after (new (Some 2) None)
        [call_addAll [resolve 1; reject 2; resolve 3]; call_executeAll None;
         timer 0 0; timer 0 1; timer 0 2; settle 0 0; settle 0 1; resume 0;
         call_setConcurrency 1; timer 0 2]%nat)) = 1.
Proof.
  apply (running_count_within_limit (Some 2) None
           [call_addAll [resolve 1; reject 2; resolve 3]; call_executeAll None;
            timer 0 0; timer 0 1; timer 0 2; settle 0 0; settle 0 1; resume 0;
            call_setConcurrency 1; timer 0 2]%nat).
  - simpl. lia.
  - simpl. repeat split; lia.
  - reflexivity.
Defined.

(** ** Where no run fails *)

Lemma drained_executing_in R : drained R → executing_in R = 0%nat.
Proof.
  unfold drained, executing_in. induction 1 as [| p ps [o Hp] _ IH]; [done |].
  simpl. apply settled_result_settled in Hp as ->. exact IH.
Qed.

Lemma drained_lookup R i p :
  drained R → run_phase R !! i = Some p → ∃ o, p = Settled o.
Proof.
  intros HD Hp. destruct (Forall_lookup_1 _ _ _ _ HD Hp) as [o Ho].
  exists o. by apply settled_result_settled.
Qed.

Lemma combine_resolved_drained ty ps :
  resolved (combine ty ps) → Forall (λ p, is_Some (settled_result p)) ps.
Proof.
  unfold combine. destruct ty.
  - destruct (mapM fulfilled_value ps) as [vs |] eqn:Hvs; [| done]. intros _.
    apply mapM_Some in Hvs. induction Hvs as [| p v ps vs Hp _ IH]; constructor; [| done].
    apply fulfilled_value_settled in Hp as ->. by eexists.
  - destruct (mapM settled_result ps) as [rs |] eqn:Hrs; [| done]. intros _.
    apply mapM_Some in Hrs. induction Hrs as [| p v ps vs Hp _ IH]; constructor; [| done].
    by eexists.
Qed.

Lemma tidy_run_step r ev R R' :
  run_step r ev R R' → tidy_run R →
  (ev = resume r → resolved (run_promise R)) →
  tidy_run R'.
Proof.
  destruct 1 as [| i R Hp | i t R Hp Ht | R Hne Hret]; try done; intros [Hres Hretd] Hev.
  - assert (¬ resolved (run_promise R)) as Hnot.
    { intros HD%Hres. by destruct (drained_lookup _ _ _ HD Hp). }
    split; simpl; [done |]. intros Hr. by apply Hretd.
  - assert (¬ resolved (run_promise R)) as Hnot.
    { intros HD%Hres. by destruct (drained_lookup _ _ _ HD Hp). }
    split; simpl; [| intros Hr; destruct Hnot; by apply Hretd].
    destruct (run_promise R) eqn:Hpr; try done. simpl.
    destruct (run_type R), (settles t); try done; apply combine_resolved_drained.
  - split; simpl; [done |]. intros _. by apply Hev.
Qed.

(** What a job does to the list of runs: nothing to its length and flags; or
    it marks one pending run as returned and lowers the flag; or it appends
    a fresh pending run and raises the flag. *)
Lemma step_runs_shape w ev w' rep :
  step w ev = Some (w', rep) →
  (length (runs w') = length (runs w) ∧ flags w' = flags w ∧
   isRunning (executor w') = isRunning (executor w)) ∨
  (∃ r, ev = resume r ∧ flags w !! r = Some false ∧
        length (runs w') = length (runs w) ∧ flags w' = <[r := true]> (flags w) ∧
        isRunning (executor w') = false) ∨
  (∃ R0, runs w' = runs w ++ [R0] ∧ run_returned R0 = false ∧
         run_promise R0 = combine (run_type R0) (run_phase R0) ∧
         isRunning (executor w) = false ∧ isRunning (executor w') = true).
Proof.
  assert (Hstart : ∀ ty opts f w0 w1 rep1,
    w0 = w ∨ w0 = {| executor := push f (executor w); runs := runs w |} →
    start ty opts w0 = (w1, rep1) →
    (length (runs w1) = length (runs w) ∧ flags w1 = flags w ∧
     isRunning (executor w1) = isRunning (executor w)) ∨
    (∃ R0, runs w1 = runs w ++ [R0] ∧ run_returned R0 = false ∧
           run_promise R0 = combine (run_type R0) (run_phase R0) ∧
           isRunning (executor w) = false ∧ isRunning (executor w1) = true)).
  { intros ty opts f w0 w1 rep1 Hw0. unfold start.
    destruct (isRunning (executor w0)) eqn:Hrun; intros [= <- <-].
    - left. by destruct Hw0 as [-> | ->].
    - right. eexists. split; [by destruct Hw0 as [-> | ->] |].
      simpl. repeat split. by destruct Hw0 as [-> | ->]. }
  intros Hstep.
  destruct ev as [f | fs | f opts | n | opts | opts | r i | r i | r]; simpl in Hstep.
  - left. unfold add in Hstep.
    destruct (isRunning (executor w)) eqn:Hrun; simplify_eq; simpl; done.
  - left. destruct (isRunning (executor w)) eqn:Hrun.
    + destruct fs as [| f fs]; [simpl in Hstep; simplify_eq; simpl; done |].
      rewrite addAll_running in Hstep by done. by simplify_eq.
    + rewrite addAll_idle in Hstep by done. simplify_eq; simpl; done.
  - injection Hstep as Hstep. unfold addWithAutoExecute in Hstep.
    destruct (auto_execute _ _) as [a |]; [| left; by simplify_eq].
    destruct (_ <=? _); [| left; by simplify_eq].
    destruct (type a);
      (destruct (Hstart _ _ f _ _ _ (or_intror eq_refl) Hstep) as [? | ?]; [by left | by right; right]).
  - left. by simplify_eq.
  - injection Hstep as Hstep.
    destruct (Hstart _ _ (resolve 0) _ _ _ (or_introl eq_refl) Hstep) as [? | ?];
      [by left | by right; right].
  - injection Hstep as Hstep.
    destruct (Hstart _ _ (resolve 0) _ _ _ (or_introl eq_refl) Hstep) as [? | ?];
      [by left | by right; right].
  - left. unfold on_timer in Hstep.
    destruct (runs w !! r) as [R |] eqn:HR; [| done]. simpl in Hstep.
    destruct (run_phase R !! i) as [[| |] |] eqn:Hp; try done. simpl in Hstep.
    destruct (wait_poll (executor w)) as [this |] eqn:Ha; injection Hstep as <- <-; [| done].
    apply wait_poll_Some in Ha as [_ ->]. unfold flags. simpl.
    rewrite length_insert, list_fmap_insert. simpl.
    rewrite list_insert_id; [done |]. by rewrite list_lookup_fmap, HR.
  - left. unfold on_settle in Hstep.
    destruct (runs w !! r) as [R |] eqn:HR; [| done]. simpl in Hstep.
    destruct (run_phase R !! i) as [[| |] |] eqn:Hp; try done; simpl in Hstep;
      destruct (run_tasks R !! i) as [t |] eqn:Ht; try done. simpl in Hstep.
    injection Hstep as <- <-. unfold flags. simpl.
    rewrite length_insert, list_fmap_insert. simpl.
    rewrite list_insert_id; [done |]. by rewrite list_lookup_fmap, HR.
  - right. left. apply resume_inv in Hstep as (R & HR & _ & Hret & _ & ->).
    exists r. unfold flags. simpl. rewrite length_insert, list_fmap_insert. simpl.
    repeat split. by rewrite list_lookup_fmap, HR, <- Hret.
Qed.

Lemma drained_executing (rs : list Run) :
  Forall drained rs → sum_list_with executing_in rs = 0%nat.
Proof.
  induction 1 as [| R rs HD _ IH]; [done |]. simpl.
  by rewrite (drained_executing_in _ HD), IH.
Qed.

Lemma tidy_step w ev w' rep :
  tidy w → orderly_at w ev → step w ev = Some (w', rep) →
  calm_at w ev ∧ tidy w'.
Proof.
  intros (Hruns & Hidle & Huniq) Hord Hstep. split.
  - destruct ev as [| | | | | | | | r]; try done. simpl.
    pose proof Hstep as (R & HR & _ & Hret & _ & _)%resume_inv.
    apply drained_executing, Forall_lookup. intros r' R' HR'.
    destruct (Forall_lookup_1 _ _ _ _ Hruns HR') as [Hres' Hret'].
    apply Hres'. destruct (decide (r' = r)) as [-> | Hne].
    + apply (Hord R'). done.
    + apply Hret'. destruct (run_returned R') eqn:Hb; [done |].
      destruct Hne. apply Huniq; unfold flags; rewrite list_lookup_fmap.
      * by rewrite HR', <- Hb.
      * by rewrite HR, <- Hret.
  - pose proof (step_runs_shape _ _ _ _ Hstep) as Hshape. split.
    + apply Forall_lookup. intros r' R' HR'.
      destruct (decide (r' < length (runs w))%nat) as [Hlt | Hge].
      * destruct (lookup_lt_is_Some_2 _ _ Hlt) as [R HR].
        destruct (step_run_step _ _ _ _ _ _ Hstep HR) as (R'' & HR'' & Hs).
        rewrite HR' in HR''. injection HR'' as <-.
        apply (tidy_run_step _ _ _ _ Hs); [by eapply Forall_lookup_1 |].
        intros ->. by apply Hord.
      * destruct Hshape as [(Hlen & _) | [(r & _ & _ & Hlen & _) | (R0 & Hw' & Hret & Hpr & _)]].
        -- apply lookup_lt_Some in HR'. lia.
        -- apply lookup_lt_Some in HR'. lia.
        -- rewrite Hw' in HR'. apply lookup_app_Some in HR' as [HR' | [_ HR']].
           { apply lookup_lt_Some in HR'. lia. }
           apply list_lookup_singleton_Some in HR' as [_ <-].
           split; [| by rewrite Hret]. rewrite Hpr. apply combine_resolved_drained.
    + destruct Hshape as [(_ & -> & ->) | [(r & _ & Hr & _ & -> & ->) | (R0 & Hw' & Hret & _ & Hrun & ->)]].
      * done.
      * split.
        -- intros _. apply Forall_lookup. intros j b Hj.
           destruct (decide (j = r)) as [-> | Hne].
           ++ rewrite list_lookup_insert_eq in Hj by by eapply lookup_lt_Some.
              by injection Hj as <-.
           ++ rewrite list_lookup_insert_ne in Hj by done.
              destruct b; [done |]. destruct Hne. by apply Huniq.
        -- intros r1 r2 H1 _. exfalso.
           destruct (decide (r1 = r)) as [-> | Hne].
           ++ rewrite list_lookup_insert_eq in H1 by by eapply lookup_lt_Some. done.
           ++ rewrite list_lookup_insert_ne in H1 by done.
              destruct Hne. by apply Huniq.
      * split; [done |].
        assert (Hnew : ∀ j, flags w' !! j = Some false → j = length (flags w)).
        { intros j Hj. unfold flags in Hj. rewrite Hw', fmap_app in Hj.
          fold (flags w) in Hj. apply lookup_app_Some in Hj as [Hj | [Hge Hj]].
          - by pose proof (Forall_lookup_1 _ _ _ _ (Hidle Hrun) Hj).
          - apply list_lookup_singleton_Some in Hj as [? _]. lia. }
        intros r1 r2 H1 H2. by rewrite (Hnew _ H1), (Hnew _ H2).
Qed.

Lemma orderly_trace w evs w' :
  counted w → tidy w → orderly w evs → run_events w evs = Some w' →
  counted w' ∧ tidy w'.
Proof.
  revert w. induction evs as [| ev evs IH]; intros w Hcounted Htidy Hord Hrun.
  - by injection Hrun as <-.
  - simpl in Hord, Hrun. destruct Hord as [Hev Hord].
    destruct (step w ev) as [[w1 rep] |] eqn:Hstep; [| done].
    destruct (tidy_step _ _ _ _ Htidy Hev Hstep) as [Hcalm Htidy1].
    apply (IH w1); [by eapply counted_step | done | done | done].
Qed.

(** As long as no run ends in a rejection and the limit is never set below
    the running count, no more functions execute at any time than the limit
    allows, and the running count is their number: the defect shown for C1
    needs a failed [executeAll]. *)
Theorem within_limit_while_no_run_fails (c : option Z)
    (opts : option PromiseConcurrentExecutorOption) (evs : list Event) (w : World) :
  0 ≤ getConcurrency (constructor c opts) →
  orderly (new c opts) evs →
  run_events (new c opts) evs = Some w →
  Z.of_nat (executing w) ≤ concurrency (executor w) ∧
  runningCount (executor w) = Z.of_nat (executing w).
Proof.
  intros Hc Hord Hrun.
  destruct (orderly_trace (new c opts) evs w) as [[Hn Hle] _].
  - split; [done | exact Hc].
  - split; [constructor | split; [intros _; constructor |]].
    intros r1 r2 H1. unfold flags in H1. simpl in H1. by rewrite lookup_nil in H1.
  - done.
  - done.
  - split; [lia | done].
Qed.

(** Limit 2, three functions under [executeAllSettled], one of which
    rejects: two execute, the third waits for a free slot. *)
Example within_limit_while_no_run_fails_example :
  Z.of_nat (executing (after (new (Some 2) None)
      [call_addAll [resolve 1; reject 2; resolve 3]; call_executeAllSettled None;
       timer 0 0; timer 0 1; timer 0 2; settle 0 1; timer 0 2;
       settle 0 0; settle 0 2; resume 0;
       call_addAll [resolve 4]; call_executeAll None; timer 1 0]%nat)) ≤ 2.
Proof.
  apply (within_limit_while_no_run_fails (Some 2) None
           [call_addAll [resolve 1; reject 2; resolve 3]; call_executeAllSettled None;
            timer 0 0; timer 0 1; timer 0 2; settle 0 1; timer 0 2;
            settle 0 0; settle 0 2; resume 0;
            call_addAll [resolve 4]; call_executeAll None; timer 1 0]%nat).
  - simpl. lia.
  - simpl. repeat split. by intros R [= <-].
  - reflexivity.
Qed.

(** * Adding in batches *)


(** X2: adding in two batches is adding in one, and a batch of one function
    is [add]. *)
Theorem addAll_in_batches (fs gs : list Task) (f : Task)
    (this : PromiseConcurrentExecutor) :
  addAll (fs ++ gs) this =
    match addAll fs this with
    | Normal this' => addAll gs this'
    | Throw e => Throw e
    end ∧
  addAll [f] this = add f this.
Proof.
  split.
  - revert this. induction fs as [| f' fs IH]; intros this; [done |].
    simpl. destruct (add f' this) as [this' | e]; [apply IH | done].
  - simpl. by destruct (add f this).
Qed.

(** * The poll interval *)

(** X3: the poll interval of a run is the interval of the call options if
    that is a number other than 0, else that of the constructor options if
    that is a number other than 0, else 100; so it is never 0, and an
    interval of 0 cannot be configured. *)
Theorem wait_interval_skips_zero (opts : option PromiseConcurrentExecutorOption)
    (w : World) :
  wait_interval opts (executor w) ≠ 0 ∧
  (∀ n, opts ≫= interval = Some n → n ≠ 0 → wait_interval opts (executor w) = n) ∧
  (falsy (opts ≫= interval) →
   ∀ n, interval (options (executor w)) = Some n → n ≠ 0 →
        wait_interval opts (executor w) = n) ∧
  (falsy (opts ≫= interval) → falsy (interval (options (executor w))) →
   wait_interval opts (executor w) = 100) ∧
  (∀ ty w1 r, start ty opts w = (w1, awaits r) →
              run_interval <$> runs w1 !! r = Some (wait_interval opts (executor w))).
Proof.
  unfold wait_interval. repeat split.
  - destruct (opts ≫= interval) as [[| p | p] |],
      (interval (options (executor w))) as [[| q | q] |]; done.
  - intros n -> Hn. by destruct n.
  - intros [-> | ->] n -> Hn; by destruct n.
  - by intros [-> | ->] [-> | ->].
  - intros ty w1 r. unfold start. destruct (isRunning (executor w)); [done |].
    intros [= <- <-]. simpl. by rewrite list_lookup_middle.
Qed.

Lemma wait_interval_skips_zero_witness :
  wait_interval (Some {| interval := Some 0; autoExecute := None |})
    (executor (new (Some 2) (Some {| interval := Some 10; autoExecute := None |}))) = 10 ∧
  wait_interval (Some {| interval := Some 0; autoExecute := None |})
    (executor (new (Some 2) (Some {| interval := Some 0; autoExecute := None |}))) = 100.
Proof.
  split.
  - apply (wait_interval_skips_zero
             (Some {| interval := Some 0; autoExecute := None |})
             (new (Some 2) (Some {| interval := Some 10; autoExecute := None |})));
      [by right | reflexivity | discriminate].
  - apply (wait_interval_skips_zero
             (Some {| interval := Some 0; autoExecute := None |})
             (new (Some 2) (Some {| interval := Some 0; autoExecute := None |})));
      by right.
Defined.

(** * One run at a time *)

Lemma one_pending_step w ev w' rep :
  one_pending w → step w ev = Some (w', rep) → one_pending w'.
Proof.
  intros (Hidle & Hbusy & Huniq) Hstep.
  destruct (step_runs_shape _ _ _ _ Hstep)
    as [(_ & Hf & Hr) | [(r & _ & Hr & _ & Hf & Hrun) | (R0 & Hw' & Hret & _ & Hrun & Hrun')]].
  - unfold one_pending. by rewrite Hf, Hr.
  - unfold one_pending. rewrite Hf, Hrun. split; [| split; [done |]].
    + intros _. apply Forall_lookup. intros j b Hj.
      destruct (decide (j = r)) as [-> | Hne].
      * rewrite list_lookup_insert_eq in Hj by by eapply lookup_lt_Some.
        by injection Hj as <-.
      * rewrite list_lookup_insert_ne in Hj by done.
        destruct b; [done |]. destruct Hne. by apply Huniq.
    + intros r1 r2 H1 _. exfalso.
      destruct (decide (r1 = r)) as [-> | Hne].
      * rewrite list_lookup_insert_eq in H1 by by eapply lookup_lt_Some. done.
      * rewrite list_lookup_insert_ne in H1 by done. destruct Hne. by apply Huniq.
  - assert (Hflags : flags w' = flags w ++ [false]).
    { unfold flags. by rewrite Hw', fmap_app, <- Hret. }
    assert (Hnew : ∀ j, flags w' !! j = Some false → j = length (flags w)).
    { intros j Hj. rewrite Hflags in Hj. apply lookup_app_Some in Hj as [Hj | [Hge Hj]].
      - by pose proof (Forall_lookup_1 _ _ _ _ (Hidle Hrun) Hj).
      - apply list_lookup_singleton_Some in Hj as [? _]. lia. }
    unfold one_pending. rewrite Hrun'. split; [done |]. split.
    + intros _. exists (length (flags w)). rewrite Hflags. by apply list_lookup_middle.
    + intros r1 r2 H1 H2. by rewrite (Hnew _ H1), (Hnew _ H2).
Qed.

Lemma one_pending_trace w evs w' :
  one_pending w → run_events w evs = Some w' → one_pending w'.
Proof.
  revert w. induction evs as [| ev evs IH]; intros w Hone Hrun.
  - by injection Hrun as <-.
  - apply run_events_cons in Hrun as (w1 & rep & Hstep & Hrun).
    eauto using one_pending_step.
Qed.

Lemma reachable_one_pending w : reachable w → one_pending w.
Proof.
  intros (c & opts & evs & Hrun). eapply one_pending_trace; [| exact Hrun].
  split; [intros _; constructor | split; [done |]].
  intros r1 r2 H1. unfold flags in H1. simpl in H1. by rewrite lookup_nil in H1.
Qed.

(** X4: in every world that a program can reach, the flag [isRunning] is up
    exactly while a call of [executeAll] / [executeAllSettled] is pending,
    at most one such call is pending, and so at most one can return at any
    moment. *)
Theorem one_run_at_a_time (w : World) :
  reachable w →
  (isRunning (executor w) = true ↔ ∃ r, flags w !! r = Some false) ∧
  (∀ r1 r2, flags w !! r1 = Some false → flags w !! r2 = Some false → r1 = r2) ∧
  (∀ r1 r2 w1 w2 rep1 rep2,
     step w (resume r1) = Some (w1, rep1) → step w (resume r2) = Some (w2, rep2) →
     r1 = r2).
Proof.
  intros (Hidle & Hbusy & Huniq)%reachable_one_pending.
  assert (Hresume : ∀ r w1 rep, step w (resume r) = Some (w1, rep) →
                                flags w !! r = Some false).
  { intros r w1 rep (R & HR & _ & Hret & _)%resume_inv.
    unfold flags. by rewrite list_lookup_fmap, HR, <- Hret. }
  split; [split; [done |] | split; [done |]].
  - intros [r Hr]. destruct (isRunning (executor w)) eqn:Hrun; [done |].
    by pose proof (Forall_lookup_1 _ _ _ _ (Hidle eq_refl) Hr).
  - intros r1 r2 w1 w2 rep1 rep2 H1 H2. eauto.
Qed.

Lemma one_run_at_a_time_witness :
  flags (after (loaded (Some 2) [reject 1; resolve 2])
               [call_executeAll None; timer 0 0; timer 0 1; settle 0 0; resume 0;
                call_add (resolve 3); call_executeAllSettled None]%nat) !! 1%nat
    = Some false ∧
  ∀ r2,
    flags (after (loaded (Some 2) [reject 1; resolve 2])
                 [call_executeAll None; timer 0 0; timer 0 1; settle 0 0; resume 0;
                  call_add (resolve 3); call_executeAllSettled None]%nat) !! r2
      = Some false → 1%nat = r2.
Proof.
  split; [reflexivity |].
  destruct (one_run_at_a_time
              (after (loaded (Some 2) [reject 1; resolve 2])
                     [call_executeAll None; timer 0 0; timer 0 1; settle 0 0; resume 0;
                      call_add (resolve 3); call_executeAllSettled None]%nat))
    as (_ & Huniq & _).
  - exists (Some 2), None,
      (call_addAll [reject 1; resolve 2] ::
       [call_executeAll None; timer 0 0; timer 0 1; settle 0 0; resume 0;
        call_add (resolve 3); call_executeAllSettled None]%nat).
    reflexivity.
  - intros r2. apply Huniq. reflexivity.
Defined.

(** * The gate and the positions of a run *)

(** X5: the running count never exceeds the number of executing functions,
    so the gate never blocks a free slot: in every reachable world in which
    fewer functions execute than the limit allows, the timer of any waiting
    position passes the gate, and its function starts. *)
Theorem gate_never_blocks_a_free_slot (w : World) (r i : nat) (R : Run) :
  reachable w →
  Z.of_nat (executing w) < concurrency (executor w) →
  runs w !! r = Some R →
  run_phase R !! i = Some Polling →
  runningCount (executor w) ≤ Z.of_nat (executing w) ∧
  ∃ w', step w (timer r i) = Some (w', quiet) ∧
        run_phase <$> runs w' !! r = Some (<[i := Executing]> (run_phase R)) ∧
        executing w' = S (executing w).
Proof.
  intros [_ Hle]%reachable_sound Hfree HR Hp. split; [done |].
  destruct (timer_passes w r i R HR Hp) as (this & _ & Hstep); [lia |].
  eexists. split; [exact Hstep |]. simpl. split.
  - rewrite list_lookup_insert_eq by by eapply lookup_lt_Some. done.
  - pose proof (executing_insert _ r R (with_phase i Executing R) HR) as H1.
    pose proof (executing_in_insert i Executing Polling R Hp) as H2.
    unfold executing. simpl in *. lia.
Qed.

Lemma gate_never_blocks_a_free_slot_witness :
  ∃ w', step (after (loaded (Some 2) [reject 1; resolve 2; resolve 3])
                    [call_executeAll None; timer 0 0; timer 0 1; timer 0 2;
                     settle 0 0; resume 0]%nat)
             (timer 0 2) = Some (w', quiet) ∧
        run_phase <$> runs w' !! 0%nat =
          Some [Settled (rejected (Num 1)); Executing; Executing] ∧
        executing w' = 2%nat.
Proof.
  destruct (gate_never_blocks_a_free_slot
              (after (loaded (Some 2) [reject 1; resolve 2; resolve 3])
                     [call_executeAll None; timer 0 0; timer 0 1; timer 0 2;
                      settle 0 0; resume 0]%nat)
              0%nat 2%nat
              {| run_type := All; run_tasks := [reject 1; resolve 2; resolve 3];
                 run_interval := 100;
                 run_phase := [Settled (rejected (Num 1)); Executing; Polling];
                 run_promise := Rejected (Num 1); run_returned := true |})
    as [_ H].
  - exists (Some 2), None,
      (call_addAll [reject 1; resolve 2; resolve 3] ::
       [call_executeAll None; timer 0 0; timer 0 1; timer 0 2; settle 0 0; resume 0]%nat).
    reflexivity.
  - reflexivity.
  - reflexivity.
  - reflexivity.
  - exact H.
Defined.

Lemma phase_le_refl p : phase_le p p.
Proof. by destruct p. Qed.

Lemma phase_le_trans p q s : phase_le p q → phase_le q s → phase_le p s.
Proof. destruct p, q, s; simpl; try done. congruence. Qed.

Lemma phases_refl (ps : list Phase) : Forall2 phase_le ps ps.
Proof. apply Forall_Forall2_diag, Forall_true, phase_le_refl. Qed.

Lemma phases_insert (ps : list Phase) i p q :
  ps !! i = Some p → phase_le p q → Forall2 phase_le ps (<[i := q]> ps).
Proof.
  intros Hp Hle. rewrite <- (list_insert_id ps i p) at 1 by done.
  apply Forall2_insert; [apply phases_refl | done].
Qed.

Lemma run_step_phases r ev R R' :
  run_step r ev R R' → Forall2 phase_le (run_phase R) (run_phase R').
Proof.
  destruct 1 as [| i R Hp | i t R Hp Ht |]; simpl.
  - apply phases_refl.
  - by eapply phases_insert.
  - by eapply phases_insert.
  - apply phases_refl.
Qed.

Lemma run_steps_phases r evs R R' :
  run_steps r evs R R' → Forall2 phase_le (run_phase R) (run_phase R').
Proof.
  induction 1 as [| ev evs R R1 R2 Hs _ IH]; [apply phases_refl |].
  eapply Forall2_trans; [| by eapply run_step_phases | exact IH].
  apply phase_le_trans.
Qed.

(** X6: whatever happens, a run keeps its functions, and its positions only
    move forward: a function that was started is never started again, a
    function that settled stays settled, and its result stays the same. *)
Theorem positions_only_advance (w : World) (evs : list Event) (w' : World)
    (r : nat) (R : Run) :
  run_events w evs = Some w' →
  runs w !! r = Some R →
  ∃ R', runs w' !! r = Some R' ∧
        run_type R' = run_type R ∧ run_tasks R' = run_tasks R ∧
        Forall2 phase_le (run_phase R) (run_phase R') ∧
        ∀ i o, run_phase R !! i = Some (Settled o) →
               run_phase R' !! i = Some (Settled o).
Proof.
  intros Hrun HR.
  destruct (run_events_run_steps _ _ _ _ _ Hrun HR) as (R' & HR' & Hsteps).
  exists R'. split; [done |].
  destruct (run_steps_fixed _ _ _ _ Hsteps) as (Hty & Hts & _).
  pose proof (run_steps_phases _ _ _ _ Hsteps) as Hle.
  repeat split; try done.
  intros i o Hi. destruct (Forall2_lookup_l _ _ _ _ _ Hle Hi) as (q & Hq & Hpq).
  destruct q; try done. simpl in Hpq. by subst.
Qed.

Lemma positions_only_advance_witness :
  ∃ R', runs (after (loaded (Some 3) [reject 1; resolve 2; resolve 3])
                    [call_executeAll None; timer 0 0; timer 0 1;
                     settle 0 0; resume 0; timer 0 2; settle 0 1]%nat) !! 0%nat
          = Some R' ∧
        run_type R' = All ∧ run_tasks R' = [reject 1; resolve 2; resolve 3] ∧
        Forall2 phase_le [Polling; Polling; Polling] (run_phase R') ∧
        ∀ i o, [Polling; Polling; Polling] !! i = Some (Settled o) →
               run_phase R' !! i = Some (Settled o).
Proof.
  apply (positions_only_advance
           (after (loaded (Some 3) [reject 1; resolve 2; resolve 3]) [call_executeAll None])
           [timer 0 0; timer 0 1; settle 0 0; resume 0; timer 0 2; settle 0 1]%nat
           _ 0%nat
           {| run_type := All; run_tasks := [reject 1; resolve 2; resolve 3];
              run_interval := 100; run_phase := [Polling; Polling; Polling];
              run_promise := Pending; run_returned := false |});
    reflexivity.
Defined.

(** * A limit of zero or less *)

Lemma executing_position w r i R :
  runs w !! r = Some R → run_phase R !! i = Some Executing → (0 < executing w)%nat.
Proof.
  intros HR Hp.
  pose proof (executing_insert _ r R (with_phase i Polling R) HR) as H1.
  pose proof (executing_in_insert i Polling Executing R Hp) as H2.
  unfold executing. simpl in *. lia.
Qed.

Lemma start_stalled ty opts w w' rep :
  start ty opts w = (w', rep) →
  concurrency (executor w) ≤ 0 → 0 ≤ runningCount (executor w) →
  executing w = 0%nat →
  (concurrency (executor w') ≤ 0 ∧ 0 ≤ runningCount (executor w') ∧
   executing w' = 0%nat) ∧
  ∀ r R, runs w !! r = Some R →
         ∃ R', runs w' !! r = Some R' ∧
               run_phase R' = run_phase R ∧ run_promise R' = run_promise R.
Proof.
  intros Hs Hc Hn He. destruct (start_counts _ _ _ _ _ Hs) as (-> & -> & ->).
  split; [done |]. intros r R HR. exists R. split; [| done].
  by eapply start_run_step.
Qed.

(** With a limit of zero or less and nothing executing, a job leaves every
    run where it is. *)
Lemma stalled_step w ev w' rep :
  concurrency (executor w) ≤ 0 → 0 ≤ runningCount (executor w) →
  executing w = 0%nat → keeps_limit_low ev →
  step w ev = Some (w', rep) →
  (concurrency (executor w') ≤ 0 ∧ 0 ≤ runningCount (executor w') ∧
   executing w' = 0%nat) ∧
  ∀ r R, runs w !! r = Some R →
         ∃ R', runs w' !! r = Some R' ∧
               run_phase R' = run_phase R ∧ run_promise R' = run_promise R.
Proof.
  intros Hc Hn He Hlow Hstep.
  destruct ev as [f | fs | f opts | n | opts | opts | r0 i | r0 i | r0]; simpl in Hstep.
  - unfold add in Hstep. destruct (isRunning (executor w)); still.
  - destruct (isRunning (executor w)) eqn:Hrun.
    + destruct fs as [| f fs]; [still |].
      rewrite addAll_running in Hstep by done. still.
    + rewrite addAll_idle in Hstep by done. still.
  - injection Hstep as Hstep. unfold addWithAutoExecute in Hstep.
    destruct (auto_execute _ _) as [a |]; [| still].
    destruct (_ <=? _); [| still].
    destruct (type a);
      apply (start_stalled _ _ {| executor := push f (executor w); runs := runs w |})
        in Hstep; done.
  - still.
  - injection Hstep as Hstep. by apply start_stalled in Hstep.
  - injection Hstep as Hstep. by apply start_stalled in Hstep.
  - unfold on_timer in Hstep.
    destruct (runs w !! r0) as [R0 |] eqn:HR0; [| done]. simpl in Hstep.
    destruct (run_phase R0 !! i) as [[| |] |] eqn:Hp; try done. simpl in Hstep.
    assert (wait_poll (executor w) = None) as Hshut by (apply wait_poll_None; lia).
    rewrite Hshut in Hstep. still.
  - unfold on_settle in Hstep.
    destruct (runs w !! r0) as [R0 |] eqn:HR0; [| done]. simpl in Hstep.
    destruct (run_phase R0 !! i) as [[| |] |] eqn:Hp; try done; simpl in Hstep;
      destruct (run_tasks R0 !! i); try done.
    pose proof (executing_position _ _ _ _ HR0 Hp). lia.
  - apply resume_inv in Hstep as (R0 & HR0 & _ & _ & _ & ->). simpl. split.
    + split; [done |]. split; [done |].
      pose proof (executing_insert _ r0 R0 (mark_returned R0) HR0) as H1.
      assert (executing_in (mark_returned R0) = executing_in R0) as H3 by done.
      unfold executing in *. simpl. lia.
    + intros r R HR. destruct (decide (r = r0)) as [-> | Hne].
      * rewrite HR0 in HR. injection HR as <-. exists (mark_returned R0).
        split; [| done]. apply list_lookup_insert_eq. by eapply lookup_lt_Some.
      * exists R. split; [| done]. by rewrite list_lookup_insert_ne.
Qed.

Lemma stalled_trace w evs w' :
  concurrency (executor w) ≤ 0 → 0 ≤ runningCount (executor w) →
  executing w = 0%nat → Forall keeps_limit_low evs →
  run_events w evs = Some w' →
  executing w' = 0%nat ∧
  ∀ r R, runs w !! r = Some R →
         ∃ R', runs w' !! r = Some R' ∧
               run_phase R' = run_phase R ∧ run_promise R' = run_promise R.
Proof.
  intros Hc Hn He Hevs. revert w Hc Hn He.
  induction Hevs as [| ev evs Hev _ IH]; intros w Hc Hn He Hrun.
  - injection Hrun as <-. eauto.
  - apply run_events_cons in Hrun as (w1 & rep & Hstep & Hrun).
    destruct (stalled_step _ _ _ _ Hc Hn He Hev Hstep) as [(Hc1 & Hn1 & He1) Hkeep1].
    destruct (IH _ Hc1 Hn1 He1 Hrun) as [He' Hkeep]. split; [done |].
    intros r R HR. destruct (Hkeep1 _ _ HR) as (R1 & HR1 & Hp1 & Ha1).
    destruct (Hkeep _ _ HR1) as (R' & HR' & Hp' & Ha').
    exists R'. split; [done |]. split; congruence.
Qed.

(** X7: on an executor whose limit is zero or less, whose running count is
    not negative and on which no function is executing (a fresh one, for
    instance), a call of [executeAll] or [executeAllSettled] that passed the
    guard starts none of its functions: whatever jobs follow, as long as no
    call raises the limit above zero, no function is executing.  The call
    then returns only if the queue was empty; with a function queued it
    cannot return, however long the timers poll. *)
Theorem nothing_starts_below_limit_one (w : World) (ty : ExecuteType)
    (opts : option PromiseConcurrentExecutorOption) (w1 : World) (r : nat)
    (evs : list Event) (w2 : World) :
  concurrency (executor w) ≤ 0 → 0 ≤ runningCount (executor w) →
  executing w = 0%nat →
  start ty opts w = (w1, awaits r) →
  Forall keeps_limit_low evs →
  run_events w1 evs = Some w2 →
  executing w2 = 0%nat ∧
  (queue (executor w) ≠ [] → step w2 (resume r) = None) ∧
  (queue (executor w) = [] →
   ∃ w3, step w1 (resume r) = Some (w3, delivers (combine ty []))).
Proof.
  intros Hc Hn He Hstart Hevs Hrun.
  destruct (start_counts _ _ _ _ _ Hstart) as (He1 & Hn1 & Hc1).
  destruct (start_awaits _ _ _ _ _ Hstart)
    as (_ & _ & _ & R & HR & Hty & _ & Hps & Hret & [Hpr _] & _).
  destruct (stalled_trace w1 evs w2) as [He2 Hkeep]; try done; try congruence.
  split; [done |]. split.
  - intros Hq. destruct (Hkeep _ _ HR) as (R' & HR' & Hps' & Hpr').
    simpl. unfold on_resume. rewrite HR'. simpl. rewrite Hpr', Hpr.
    rewrite (combine_unsettled _ _ Polling); [done | | done].
    rewrite Hps. destruct (queue (executor w)) as [| f q]; [done |]. by left.
  - intros Hq. eexists. rewrite (resume_runs _ _ _ HR); [| | done].
    + by rewrite Hpr, Hps, Hty, Hq.
    + rewrite Hpr, Hps, Hq. simpl. by destruct (run_type R).
Qed.

Lemma nothing_starts_below_limit_one_witness :
  executing (after (loaded (Some (-1)) [resolve 1; resolve 2])
                   [call_executeAllSettled None; timer 0 0; timer 0 1;
                    call_setConcurrency 0; timer 0 0; timer 0 1]%nat) = 0%nat ∧
  step (after (loaded (Some (-1)) [resolve 1; resolve 2])
              [call_executeAllSettled None; timer 0 0; timer 0 1;
               call_setConcurrency 0; timer 0 0; timer 0 1]%nat)
       (resume 0) = None.
Proof.
  destruct (nothing_starts_below_limit_one
              (loaded (Some (-1)) [resolve 1; resolve 2]) AllSettled None
              (start AllSettled None (loaded (Some (-1)) [resolve 1; resolve 2])).1 0%nat
              [timer 0 0; timer 0 1; call_setConcurrency 0; timer 0 0; timer 0 1]%nat
              (after (loaded (Some (-1)) [resolve 1; resolve 2])
                     [call_executeAllSettled None; timer 0 0; timer 0 1;
                      call_setConcurrency 0; timer 0 0; timer 0 1]%nat))
    as (H1 & H2 & _).
  - simpl. lia.
  - simpl. lia.
  - reflexivity.
  - reflexivity.
  - repeat constructor. simpl. lia.
  - reflexivity.
  - split; [exact H1 | by apply H2].
Defined.

(** * Adding with automatic execution, function after function *)




Lemma runtime_tasks w ev w' rep :
  runtime ev → step w ev = Some (w', rep) →
  run_tasks <$> runs w' = run_tasks <$> runs w.
Proof.
  destruct ev as [| | | | | | r i | r i | r]; try done; intros _; simpl.
  - unfold on_timer. destruct (runs w !! r) as [R |] eqn:HR; [| done]. simpl.
    destruct (run_phase R !! i) as [[| |] |]; try done. simpl.
    destruct (wait_poll (executor w)); intros [= <- _]; [| done]. simpl.
    rewrite list_fmap_insert. simpl.
    apply list_insert_id. by rewrite list_lookup_fmap, HR.
  - unfold on_settle. destruct (runs w !! r) as [R |] eqn:HR; [| done]. simpl.
    destruct (run_phase R !! i) as [[| |] |]; try done; simpl;
      destruct (run_tasks R !! i); try done. simpl. intros [= <- _]. simpl.
    rewrite list_fmap_insert. simpl.
    apply list_insert_id. by rewrite list_lookup_fmap, HR.
  - intros (R & HR & _ & _ & _ & ->)%resume_inv. simpl.
    rewrite list_fmap_insert. simpl.
    apply list_insert_id. by rewrite list_lookup_fmap, HR.
Qed.

Lemma submitted_tasks n w w' :
  run_tasks <$> runs w' = run_tasks <$> runs w →
  submitted n w' = submitted n w ∧ length (runs w') = length (runs w).
Proof.
  intros Heq. split.
  - unfold submitted. by rewrite !fmap_drop, Heq.
  - by rewrite <- (length_fmap run_tasks (runs w')), Heq, length_fmap.
Qed.

Lemma leftover_mod k (fs : list Task) :
  1 ≤ k →
  ∀ len, Z.of_nat len < k →
         Z.of_nat (leftover k len fs) = (Z.of_nat len + Z.of_nat (length fs)) mod k.
Proof.
  intros Hk. induction fs as [| f fs IH]; intros len Hlen; simpl.
  - rewrite Z.add_0_r. symmetry. apply Z.mod_small. lia.
  - destruct (Z.leb_spec k (Z.of_nat (S len))) as [Hge | Hlt].
    + rewrite IH by lia.
      replace (Z.of_nat len + Z.of_nat (S (length fs)))
        with (Z.of_nat 0 + Z.of_nat (length fs) + 1 * k) by lia.
      by rewrite Z_mod_plus_full.
    + rewrite IH by lia. f_equal. lia.
Qed.

Lemma auto_execute_call opts a this :
  opts ≫= autoExecute = Some a → auto_execute opts this = Some a.
Proof. intros H. unfold auto_execute. by rewrite H. Qed.

(** The loop from an idle world with no pending run, up to its first
    suspension. *)
Lemma loop_from_idle opts a all n0 (fs : list Task) :
  opts ≫= autoExecute = Some a →
  ∀ w, isRunning (executor w) = false →
       Forall (λ b, b = true) (flags w) →
       (n0 ≤ length (runs w))%nat →
       submitted n0 w ++ queue (executor w) ++ fs = all →
       loop_inv (triggerThreshold a) all n0
         (leftover (triggerThreshold a) (length (queue (executor w))) fs)
         (addAllWithAutoExecute fs opts w).1 (addAllWithAutoExecute fs opts w).2.
Proof.
  intros Hopts. induction fs as [| f fs IH]; intros w Hidle Hflags Hn0 Hall.
  - simpl. rewrite app_nil_r in Hall. done.
  - simpl. unfold addWithAutoExecute.
    rewrite (auto_execute_call _ _ _ Hopts).
    assert (Hsize : size (push f (executor w)) = Z.of_nat (S (length (queue (executor w))))).
    { unfold size. simpl. rewrite length_app. simpl. f_equal. lia. }
    rewrite Hsize.
    destruct (triggerThreshold a <=? Z.of_nat (S (length (queue (executor w))))).
    + assert (Hstart : ∀ ty,
        start ty opts {| executor := push f (executor w); runs := runs w |} =
        ({| executor := mark_running (push f (executor w));
            runs := runs w ++
              [ {| run_type := ty; run_tasks := queue (executor w) ++ [f];
                   run_interval := wait_interval opts (push f (executor w));
                   run_phase := (λ _, Polling) <$> (queue (executor w) ++ [f]);
                   run_promise := combine ty ((λ _, Polling) <$> (queue (executor w) ++ [f]));
                   run_returned := false |} ] |},
         awaits (length (runs w))))
        by (intros ty; by apply (start_idle ty opts {| executor := push f (executor w); runs := runs w |})).
      assert (Hgoal : ∀ ty,
        loop_inv (triggerThreshold a) all n0 (leftover (triggerThreshold a) 0 fs)
          (start ty opts {| executor := push f (executor w); runs := runs w |}).1
          (loop_awaits (length (runs w)) fs)).
      { intros ty. rewrite Hstart. unfold loop_inv. simpl.
        split; [rewrite length_app; lia |].
        assert (Hnew : ∀ j b, (flags w ++ [b]) !! j = Some false →
                              j = length (runs w)).
        { intros j b Hj. apply lookup_app_Some in Hj as [Hj | [Hge Hj]].
          - by pose proof (Forall_lookup_1 _ _ _ _ Hflags Hj).
          - apply list_lookup_singleton_Some in Hj as [? _].
            unfold flags in *. rewrite length_fmap in *. lia. }
        unfold flags. simpl. rewrite fmap_app. simpl. fold (flags w).
        split; [| split; [by eauto | split; [| done]]].
        - rewrite <- (length_fmap run_returned (runs w)). by apply list_lookup_middle.
        - unfold submitted. simpl. rewrite drop_app_le by done.
          rewrite fmap_app, concat_app. simpl. rewrite app_nil_r.
          rewrite <- Hall. unfold submitted. by rewrite <- !app_assoc. }
      destruct (type a); unfold executeAll, executeAllSettled; rewrite Hstart; simpl;
        [specialize (Hgoal All) | specialize (Hgoal AllSettled)];
        rewrite Hstart in Hgoal; exact Hgoal.
    + specialize (IH {| executor := push f (executor w); runs := runs w |}).
      simpl in IH. rewrite length_app in IH. simpl in IH.
      rewrite Nat.add_1_r in IH. apply IH; try done.
      by rewrite <- app_assoc.
Qed.

Lemma flags_all_returned (fl : list bool) r :
  (∀ r', fl !! r' = Some false → r' = r) →
  Forall (λ b, b = true) (<[r := true]> fl).
Proof.
  intros Huniq. apply Forall_lookup. intros j b Hj.
  apply list_lookup_insert_Some in Hj as [(_ & <- & _) | (Hne & Hj)]; [done |].
  destruct b; [done |]. destruct Hne. symmetry. by apply Huniq.
Qed.

Lemma runtime_flags w ev w' rep :
  background ev → runtime ev → step w ev = Some (w', rep) → flags w' = flags w.
Proof.
  intros Hbg Hrt Hstep.
  destruct (step_runs_shape _ _ _ _ Hstep)
    as [(_ & Hf & _) | [(r & -> & _) | (R0 & Hw' & _)]]; [done | done |].
  pose proof (runtime_tasks _ _ _ _ Hrt Hstep) as Hts.
  apply (f_equal length) in Hts. rewrite !length_fmap, Hw', length_app in Hts.
  simpl in Hts. lia.
Qed.

(** The invariant of the loop holds along every trace of runtime jobs, the
    loop going on whenever the run it awaits resumes. *)
Lemma run_loop_inv opts a all n0 target evs :
  opts ≫= autoExecute = Some a → Forall runtime evs →
  ∀ w st w' st',
    loop_inv (triggerThreshold a) all n0 target w st →
    run_loop opts w st evs = Some (w', st') →
    loop_inv (triggerThreshold a) all n0 target w' st'.
Proof.
  intros Hopts Hevs. induction Hevs as [| ev evs Hev _ IH]; intros w st w' st' Hinv Hrun.
  - by injection Hrun as <- <-.
  - simpl in Hrun. destruct (step w ev) as [[w1 rep] |] eqn:Hstep; [| done].
    pose proof (runtime_tasks _ _ _ _ Hev Hstep) as Hts.
    apply (submitted_tasks n0) in Hts as [Hsub Hlen].
    destruct Hinv as [Hn0 Hinv].
    destruct ev as [| | | | | | r i | r i | r]; try done.
    1, 2: assert (Hst : loop_inv (triggerThreshold a) all n0 target w1 st);
      [| by (destruct st; apply (IH _ _ _ _ Hst Hrun))].
    1, 2: assert (Hf : flags w1 = flags w)
        by (eapply runtime_flags; [| | exact Hstep]; exact I);
      assert (queue (executor w1) = queue (executor w) ∧
              isRunning (executor w1) = isRunning (executor w)) as [Hq Hr]
        by (eapply background_step; [| exact Hstep]; exact I);
      split; [lia |]; destruct st as [| e | r' rest];
      rewrite ?Hf, ?Hq, ?Hr, ?Hsub; try done;
      destruct Hinv as (? & ? & ? & ? & r0 & R & HR & HRej);
      (split; [done | split; [done | split; [done | split; [done |]]]]);
      destruct (step_run_step _ _ _ _ _ _ Hstep HR) as (R' & HR' & Hs);
      exists r0, R'; (split; [done |]);
      rewrite (run_step_settled_promise _ _ _ _ Hs); [done | by rewrite HRej].
    pose proof Hstep as (R & HR & Hp & Hret & -> & ->)%resume_inv.
    assert (Hpend : flags w !! r = Some false).
    { unfold flags. by rewrite list_lookup_fmap, HR, <- Hret. }
    assert (Hfl : flags {| executor := init (executor w);
                           runs := <[r := mark_returned R]> (runs w) |} =
                  <[r := true]> (flags w)).
    { unfold flags. simpl. by rewrite list_fmap_insert. }
    destruct st as [| e | r' rest].
    + destruct Hinv as (_ & Hall & _).
      by pose proof (Forall_lookup_1 _ _ _ _ Hall Hpend).
    + destruct Hinv as (_ & Hall & _).
      by pose proof (Forall_lookup_1 _ _ _ _ Hall Hpend).
    + destruct Hinv as (_ & Huniq & Hsubm & Htarget).
      pose proof (Huniq _ Hpend) as ->.
      destruct (decide (r' = r')) as [_ | Hne]; [| done].
      destruct (loop_continue _ _ _ _) as [w2 st2] eqn:Hc.
      refine (IH _ _ _ _ _ Hrun).
      pose proof (flags_all_returned _ _ Huniq) as Hall.
      assert (Hgo : loop_inv (triggerThreshold a) all n0 target
                (addAllWithAutoExecute rest opts
                   {| executor := init (executor w);
                      runs := <[r' := mark_returned R]> (runs w) |}).1
                (addAllWithAutoExecute rest opts
                   {| executor := init (executor w);
                      runs := <[r' := mark_returned R]> (runs w) |}).2).
      { rewrite <- Htarget.
        apply (loop_from_idle opts a all n0 rest Hopts
                 {| executor := init (executor w);
                    runs := <[r' := mark_returned R]> (runs w) |});
          [done | by rewrite Hfl | lia | by rewrite Hsub]. }
      unfold loop_continue in Hc.
      destruct (run_promise R) as [| vs | rs | x] eqn:HRp; [done | | |].
      * by rewrite Hc in Hgo.
      * by rewrite Hc in Hgo.
      * injection Hc as <- <-. split; [lia |].
        rewrite Hfl, Hsub. simpl.
        split; [done | split; [done | split; [done | split; [by eauto |]]]].
        exists r', (mark_returned R). split; [| done].
        apply list_lookup_insert_eq. by eapply lookup_lt_Some.
Qed.

(** X9: a call of [addAllWithAutoExecute] with its own auto-execute setting,
    made while no run is in progress and the queue is shorter than the
    threshold [k], and awaited without further calls: whenever it has
    completed, the executor is idle and holds (size before + number of
    functions) mod [k] functions. *)
Theorem addAllWithAutoExecute_leaves_remainder (fs : list Task)
    (opts : option PromiseConcurrentExecutorOption) (a : AutoExecute)
    (w : World) (evs : list Event) (w' : World) :
  reachable w → isRunning (executor w) = false →
  opts ≫= autoExecute = Some a →
  size (executor w) < triggerThreshold a →
  Forall runtime evs →
  run_loop opts (addAllWithAutoExecute fs opts w).1
           (addAllWithAutoExecute fs opts w).2 evs = Some (w', loop_done) →
  size (executor w') =
    (size (executor w) + Z.of_nat (length fs)) mod triggerThreshold a ∧
  isRunning (executor w') = false.
Proof.
  intros Hreach Hidle Hopts Hsize Hevs Hrun.
  pose proof (reachable_one_pending _ Hreach) as (Hflags & _).
  specialize (Hflags Hidle).
  pose proof (loop_from_idle opts a _ (length (runs w)) fs Hopts w Hidle Hflags
                (le_n _) eq_refl) as Hinit.
  pose proof (run_loop_inv opts a _ _ _ evs Hopts Hevs _ _ _ _ Hinit Hrun)
    as (_ & Hr & _ & _ & Hlen).
  split; [| done]. unfold size in *. rewrite Hlen. apply leftover_mod; lia.
Qed.

Lemma addAllWithAutoExecute_leaves_remainder_witness :
  ∃ w',
    run_loop
      (Some {| interval := Some 10;
               autoExecute := Some {| type := AllSettled; triggerThreshold := 4 |} |})
      (addAllWithAutoExecute (replicate 10 (resolve 100))
         (Some {| interval := Some 10;
                  autoExecute := Some {| type := AllSettled; triggerThreshold := 4 |} |})
         (new (Some 5) None)).1
      (addAllWithAutoExecute (replicate 10 (resolve 100))
         (Some {| interval := Some 10;
                  autoExecute := Some {| type := AllSettled; triggerThreshold := 4 |} |})
         (new (Some 5) None)).2
      (sequential 0 0 4 ++ [resume 0%nat] ++ sequential 1 0 4 ++ [resume 1%nat])
    = Some (w', loop_done) ∧
    size (executor w') = 2.
Proof.
  eexists. split; [vm_compute; reflexivity |].
  refine (proj1 (addAllWithAutoExecute_leaves_remainder (replicate 10 (resolve 100))
     (Some {| interval := Some 10;
              autoExecute := Some {| type := AllSettled; triggerThreshold := 4 |} |})
     {| type := AllSettled; triggerThreshold := 4 |}
     (new (Some 5) None)
     (sequential 0 0 4 ++ [resume 0%nat] ++ sequential 1 0 4 ++ [resume 1%nat])
     _ _ _ _ _ _ _)).
  - by exists (Some 5), None, [].
  - reflexivity.
  - reflexivity.
  - reflexivity.
  - vm_compute. repeat constructor.
  - vm_compute. reflexivity.
Defined.

(** X10: a call of [addAllWithAutoExecute] with its own auto-execute
    setting, made in a reachable world while no run is in progress and
    awaited without further calls, hands its functions to the runs it starts
    in the order given, each exactly once.  While it awaits a run, the runs
    started so far followed by the functions not yet looked at are the old
    queue followed by the argument; when it has completed, the runs followed
    by the queue are; when it has failed, the reason is the rejection of a
    run, the queue is empty, and the functions after the failed batch are in
    no run. *)
Theorem addAllWithAutoExecute_hands_over_in_order (fs : list Task)
    (opts : option PromiseConcurrentExecutorOption) (a : AutoExecute)
    (w : World) (evs : list Event) (w' : World) (st' : LoopState) :
  reachable w → isRunning (executor w) = false →
  opts ≫= autoExecute = Some a →
  Forall runtime evs →
  run_loop opts (addAllWithAutoExecute fs opts w).1
           (addAllWithAutoExecute fs opts w).2 evs = Some (w', st') →
  match st' with
  | loop_done =>
      submitted (length (runs w)) w' ++ queue (executor w') = queue (executor w) ++ fs
  | loop_awaits r rest =>
      submitted (length (runs w)) w' ++ rest = queue (executor w) ++ fs
  | loop_failed e =>
      queue (executor w') = [] ∧
      (∃ rest, submitted (length (runs w)) w' ++ rest = queue (executor w) ++ fs) ∧
      ∃ r R, runs w' !! r = Some R ∧ run_promise R = Rejected e
  end.
Proof.
  intros Hreach Hidle Hopts Hevs Hrun.
  pose proof (reachable_one_pending _ Hreach) as (Hflags & _).
  specialize (Hflags Hidle).
  assert (Hall : submitted (length (runs w)) w ++ queue (executor w) ++ fs =
                 queue (executor w) ++ fs).
  { unfold submitted. by rewrite drop_all. }
  pose proof (loop_from_idle opts a _ (length (runs w)) fs Hopts w Hidle Hflags
                (le_n _) Hall) as Hinit.
  pose proof (run_loop_inv opts a _ _ _ evs Hopts Hevs _ _ _ _ Hinit Hrun)
    as (_ & Hinv).
  destruct st' as [| e | r rest].
  - by destruct Hinv as (_ & _ & ? & _).
  - by destruct Hinv as (_ & _ & ? & ? & ?).
  - by destruct Hinv as (_ & _ & ? & _).
Qed.

Lemma addAllWithAutoExecute_hands_over_in_order_witness :
  ∃ w',
    run_loop
      (Some {| interval := Some 10;
               autoExecute := Some {| type := All; triggerThreshold := 1 |} |})
      (addAllWithAutoExecute [reject 100; reject 101; reject 102]
         (Some {| interval := Some 10;
                  autoExecute := Some {| type := All; triggerThreshold := 1 |} |})
         (new (Some 5) None)).1
      (addAllWithAutoExecute [reject 100; reject 101; reject 102]
         (Some {| interval := Some 10;
                  autoExecute := Some {| type := All; triggerThreshold := 1 |} |})
         (new (Some 5) None)).2
      [timer 0 0; settle 0 0; resume 0%nat]
    = Some (w', loop_failed (Num 100)) ∧
    queue (executor w') = [] ∧
    (∃ rest, submitted 0 w' ++ rest = [reject 100; reject 101; reject 102]) ∧
    ∃ r R, runs w' !! r = Some R ∧ run_promise R = Rejected (Num 100).
Proof.
  eexists. split; [vm_compute; reflexivity |].
  refine (addAllWithAutoExecute_hands_over_in_order [reject 100; reject 101; reject 102]
     (Some {| interval := Some 10;
              autoExecute := Some {| type := All; triggerThreshold := 1 |} |})
     {| type := All; triggerThreshold := 1 |}
     (new (Some 5) None)
     [timer 0 0; settle 0 0; resume 0%nat]
     _ (loop_failed (Num 100)) _ _ _ _ _).
  - by exists (Some 5), None, [].
  - reflexivity.
  - reflexivity.
  - repeat constructor.
  - vm_compute. reflexivity.
Defined.

Lemma run_step_allSettled r ev R R' :
  run_step r ev R R' → run_type R = AllSettled →
  (∀ x, run_promise R ≠ Rejected x) → ∀ x, run_promise R' ≠ Rejected x.
Proof.
  destruct 1; try done. simpl. intros -> Hp x.
  destruct (run_promise R) eqn:HR; try done.
  simpl. by destruct (mapM _ _).
Qed.

Lemma loop_allSettled_start opts a (fs : list Task) :
  opts ≫= autoExecute = Some a → type a = AllSettled →
  ∀ w, isRunning (executor w) = false →
       allSettled_loop (addAllWithAutoExecute fs opts w).1
                       (addAllWithAutoExecute fs opts w).2.
Proof.
  intros Hopts Hty. induction fs as [| f fs IH]; intros w Hidle; [done |].
  simpl. unfold addWithAutoExecute.
  rewrite (auto_execute_call _ _ _ Hopts), Hty.
  destruct (triggerThreshold a <=? size (push f (executor w))).
  - unfold executeAllSettled.
    rewrite (start_idle AllSettled opts
               {| executor := push f (executor w); runs := runs w |}) by done.
    simpl. eexists. split; [by apply list_lookup_middle |]. simpl.
    split; [done |]. intros x. by destruct (mapM _ _).
  - by apply (IH {| executor := push f (executor w); runs := runs w |}).
Qed.

Lemma run_loop_allSettled opts a evs :
  opts ≫= autoExecute = Some a → type a = AllSettled → Forall runtime evs →
  ∀ w st w' st',
    allSettled_loop w st →
    run_loop opts w st evs = Some (w', st') →
    allSettled_loop w' st'.
Proof.
  intros Hopts Hty Hevs.
  induction Hevs as [| ev evs Hev _ IH]; intros w st w' st' Hinv Hrun.
  - by injection Hrun as <- <-.
  - simpl in Hrun. destruct (step w ev) as [[w1 rep] |] eqn:Hstep; [| done].
    assert (Hkeep : allSettled_loop w1 st).
    { destruct st as [| e | r rest]; try done.
      destruct Hinv as (R & HR & HRty & Hp).
      destruct (step_run_step _ _ _ _ _ _ Hstep HR) as (R' & HR' & Hs).
      exists R'. split; [done |].
      destruct (run_step_fixed _ _ _ _ Hs) as (-> & _). split; [done |].
      by eapply run_step_allSettled. }
    destruct ev as [| | | | | | r i | r i | r]; try done.
    1, 2: by (destruct st; apply (IH _ _ _ _ Hkeep Hrun)).
    destruct st as [| e | r' rest]; try done.
    + by apply (IH _ _ _ _ Hkeep Hrun).
    + pose proof Hstep as (R & HR & _ & _ & -> & ->)%resume_inv.
      destruct (decide (r = r')) as [-> | Hne]; [| by apply (IH _ _ _ _ Hkeep Hrun)].
      destruct (loop_continue _ _ _ _) as [w2 st2] eqn:Hc.
      refine (IH _ _ _ _ _ Hrun).
      pose proof (loop_allSettled_start opts a rest Hopts Hty
                    {| executor := init (executor w);
                       runs := <[r' := mark_returned R]> (runs w) |} eq_refl) as Hgo.
      destruct Hinv as (R0 & HR0 & _ & Hp). rewrite HR in HR0. injection HR0 as <-.
      unfold loop_continue in Hc.
      destruct (run_promise R) as [| vs | rs | x] eqn:HRp;
        [by rewrite Hc in Hgo | by rewrite Hc in Hgo | by rewrite Hc in Hgo |].
      by destruct (Hp x).
Qed.

(** X11: with the strategy [allSettled] in its own auto-execute setting, a
    call of [addAllWithAutoExecute] made while no run is in progress and
    awaited without further calls never fails, whatever the functions do and
    in whatever order timers fire and functions settle. *)
Theorem addAllWithAutoExecute_allSettled_never_fails (fs : list Task)
    (opts : option PromiseConcurrentExecutorOption) (a : AutoExecute)
    (w : World) (evs : list Event) (w' : World) (st' : LoopState) :
  isRunning (executor w) = false →
  opts ≫= autoExecute = Some a → type a = AllSettled →
  Forall runtime evs →
  run_loop opts (addAllWithAutoExecute fs opts w).1
           (addAllWithAutoExecute fs opts w).2 evs = Some (w', st') →
  ∀ e, st' ≠ loop_failed e.
Proof.
  intros Hidle Hopts Hty Hevs Hrun e ->.
  exact (run_loop_allSettled opts a evs Hopts Hty Hevs _ _ _ _
           (loop_allSettled_start opts a fs Hopts Hty w Hidle) Hrun).
Qed.

Lemma addAllWithAutoExecute_allSettled_never_fails_witness :
  ∃ w' st',
    run_loop
      (Some {| interval := Some 10;
               autoExecute := Some {| type := AllSettled; triggerThreshold := 2 |} |})
      (addAllWithAutoExecute [reject 100; reject 101; reject 102]
         (Some {| interval := Some 10;
                  autoExecute := Some {| type := AllSettled; triggerThreshold := 2 |} |})
         (new (Some 5) None)).1
      (addAllWithAutoExecute [reject 100; reject 101; reject 102]
         (Some {| interval := Some 10;
                  autoExecute := Some {| type := AllSettled; triggerThreshold := 2 |} |})
         (new (Some 5) None)).2
      [timer 0 1; timer 0 0; settle 0 1; settle 0 0; resume 0%nat]
    = Some (w', st') ∧
    ∀ e, st' ≠ loop_failed e.
Proof.
  do 2 eexists. split; [vm_compute; reflexivity |].
  refine (addAllWithAutoExecute_allSettled_never_fails [reject 100; reject 101; reject 102]
     (Some {| interval := Some 10;
              autoExecute := Some {| type := AllSettled; triggerThreshold := 2 |} |})
     {| type := AllSettled; triggerThreshold := 2 |}
     (new (Some 5) None)
     [timer 0 1; timer 0 0; settle 0 1; settle 0 0; resume 0%nat]
     _ _ _ _ _ _ _).
  - reflexivity.
  - reflexivity.
  - reflexivity.
  - repeat constructor.
  - vm_compute. reflexivity.
Defined.













(** * Adding while a run is in progress *)

Lemma addWithAutoExecute_running f opts w :
  isRunning (executor w) = true →
  runs (addWithAutoExecute f opts w).1 = runs w ∧
  isRunning (executor (addWithAutoExecute f opts w).1) = true ∧
  (addWithAutoExecute f opts w).2 ≠ awaits (length (runs w)).
Proof.
  intros Hrun. unfold addWithAutoExecute.
  destruct (auto_execute opts (push f (executor w))) as [a |]; [| done].
  destruct (triggerThreshold a <=? size (push f (executor w))); [| done].
  destruct (type a); unfold executeAll, executeAllSettled;
    rewrite (start_running _ opts {| executor := push f (executor w); runs := runs w |})
      by done; done.
Qed.

Lemma runtime_trace_tasks evs :
  Forall runtime evs →
  ∀ w w', run_events w evs = Some w' → run_tasks <$> runs w' = run_tasks <$> runs w.
Proof.
  induction 1 as [| ev evs Hev _ IH]; intros w w' Hrun.
  - by injection Hrun as <-.
  - apply run_events_cons in Hrun as (w1 & rep & Hstep & Hrun).
    rewrite (IH _ _ Hrun). by eapply runtime_tasks.
Qed.

Lemma runtime_trace_queue evs :
  Forall runtime evs →
  ∀ w w', run_events w evs = Some w' →
          isRunning (executor w) = true ∨ queue (executor w) = [] →
          isRunning (executor w') = true ∨ queue (executor w') = [].
Proof.
  induction 1 as [| ev evs Hev _ IH]; intros w w' Hrun Hinv.
  - by injection Hrun as <-.
  - apply run_events_cons in Hrun as (w1 & rep & Hstep & Hrun).
    apply (IH _ _ Hrun).
    destruct ev as [| | | | | | r i | r i | r]; try done.
    1, 2: assert (queue (executor w1) = queue (executor w) ∧
                  isRunning (executor w1) = isRunning (executor w)) as [-> ->]
            by (eapply background_step; [| exact Hstep]; exact I); done.
    apply resume_inv in Hstep as (R & _ & _ & _ & _ & ->). by right.
Qed.

(** X14: a function added through [addWithAutoExecute] while a run is in
    progress is lost.  The call appends it and starts nothing, whether it
    returns or fails; the function joins no run, and when the run in
    progress has ended, with no other call in between, the queue is empty:
    the function was dropped without having been called. *)
Theorem addWithAutoExecute_during_run_is_dropped (f : Task)
    (opts : option PromiseConcurrentExecutorOption)
    (w : World) (evs : list Event) (w' : World) :
  isRunning (executor w) = true →
  Forall runtime evs →
  run_events (addWithAutoExecute f opts w).1 evs = Some w' →
  isRunning (executor w') = false →
  queue (executor (addWithAutoExecute f opts w).1) = queue (executor w) ++ [f] ∧
  run_tasks <$> runs w' = run_tasks <$> runs w ∧
  queue (executor w') = [].
Proof.
  intros Hrunning Hevs Hrun Hidle.
  destruct (addWithAutoExecute_running f opts w Hrunning) as (Hruns & Hflag & _).
  split; [apply addWithAutoExecute_queue |]. split.
  - rewrite (runtime_trace_tasks evs Hevs _ _ Hrun). by rewrite Hruns.
  - destruct (runtime_trace_queue evs Hevs _ _ Hrun (or_introl Hflag)) as [Ht | Hq];
      [| done].
    by rewrite Ht in Hidle.
Qed.

Lemma addWithAutoExecute_during_run_is_dropped_witness :
  ∃ w',
    run_events
      (addWithAutoExecute (resolve 2) None
         (after (loaded (Some 1) [resolve 1]) [call_executeAll None])).1
      [timer 0 0; settle 0 0; resume 0%nat] = Some w' ∧
    queue (executor (addWithAutoExecute (resolve 2) None
         (after (loaded (Some 1) [resolve 1]) [call_executeAll None])).1)
      = [resolve 1; resolve 2] ∧
    run_tasks <$> runs w' = [[resolve 1]] ∧
    queue (executor w') = [].
Proof.
  eexists. split; [vm_compute; reflexivity |].
  refine (addWithAutoExecute_during_run_is_dropped (resolve 2) None
     (after (loaded (Some 1) [resolve 1]) [call_executeAll None])
     [timer 0 0; settle 0 0; resume 0%nat] _ _ _ _ _).
  - reflexivity.
  - repeat constructor.
  - vm_compute. reflexivity.
  - reflexivity.
Defined.
